(** * server/status/monitor.go: range statistics accumulators and the
      per-node registry of store monitors.

    The Go file defines [rangeDataAccumulator] (running totals of MVCC
    statistics and a range count, with a scanning mode used to bootstrap
    the totals), [StoreStatusMonitor] (an accumulator tagged with its
    store id) and [NodeStatusMonitor] (a map from store id to a pointer to
    the store's monitor, filled in lazily).

    Conventions of the embedding:
    - Go's [int64] is a [Z] with the two's complement wrap-around written
      out ([Int64.wrap]);
    - a Go map is a stdpp [gmap]/[gset]; the [nil] map is [None], a map
      made by [make] is [Some ∅]; reading a [nil] map finds nothing,
      assigning into it panics;
    - [*StoreStatusMonitor] is a location in an explicit heap, so that
      "the same instance" means "the same location";
    - every method body runs between [Lock] and a deferred [Unlock] of a
      mutex; the model describes the state at the points where no
      mutex is held, which is where a sequential caller observes it. *)

From stdpp Require Import gmap list fin_maps.

Local Open Scope Z_scope.

(** ** Go's int64 arithmetic *)

Module Int64.

Definition min_int : Z := - 2 ^ 63.
Definition max_int : Z := 2 ^ 63 - 1.

Definition in_range (z : Z) : Prop := min_int <= z <= max_int.

(** Reduction of a mathematical integer to its int64 representative. *)
Definition wrap (z : Z) : Z := (z + 2 ^ 63) mod 2 ^ 64 - 2 ^ 63.

Definition add (x y : Z) : Z := wrap (x + y).
Definition sub (x y : Z) : Z := wrap (x - y).

(** [x++] and [x--]. *)
Definition incr (x : Z) : Z := add x 1.
Definition decr (x : Z) : Z := sub x 1.

End Int64.

(** ** The statistics type *)

(** Modelled from the spec: [proto.MVCCStats] and its methods [Add] and
    [Subtract] are declared in package [proto], outside this file.  The
    accumulator only needs the zero value [proto.MVCCStats{}] and the two
    methods, so they are taken as an interface: "a metric set supporting
    pointwise addition and subtraction". *)
Class MVCCStatsOps (Stats : Type) := {
  MVCCStats_zero : Stats;
  MVCCStats_Add : Stats -> Stats -> Stats;
  MVCCStats_Subtract : Stats -> Stats -> Stats;
}.

(** Modelled from the spec: a metric set with a single int64 metric, the
    one in which the spec phrases its scenarios ("stats=10", "delta=+5").
    Addition and subtraction are Go's [+=] and [-=] on int64. *)
#[export] Instance Int64Stats : MVCCStatsOps Z := {|
  MVCCStats_zero := 0;
  MVCCStats_Add := Int64.add;
  MVCCStats_Subtract := Int64.sub;
|}.

(** Metric sets compose pointwise: a pair of metric sets is one. *)
#[export] Instance PairStats {A B} `{MVCCStatsOps A, MVCCStatsOps B} :
  MVCCStatsOps (A * B) := {|
  MVCCStats_zero := (MVCCStats_zero, MVCCStats_zero);
  MVCCStats_Add := fun x y =>
    (MVCCStats_Add x.1 y.1, MVCCStats_Add x.2 y.2);
  MVCCStats_Subtract := fun x y =>
    (MVCCStats_Subtract x.1 y.1, MVCCStats_Subtract x.2 y.2);
|}.

(** ** Identifiers and events *)

(** [proto.StoreID]; the code only uses it as a map key. *)
Abbreviation StoreID := Z (only parsing).

(** The part of [proto.RangeDescriptor] this file reads. *)
Record RangeDescriptor := { RaftID : Z }.

Section Events.
Context {Stats : Type}.

(** The events of package [storage], with the fields read here. *)
Record AddRangeEvent := {
  AddRange_StoreID : StoreID;
  AddRange_Desc : RangeDescriptor;
  AddRange_Stats : Stats;
}.

Record UpdateRangeEvent := {
  UpdateRange_StoreID : StoreID;
  UpdateRange_Desc : RangeDescriptor;
  UpdateRange_Delta : Stats;
}.

Record RemoveRangeEvent := {
  RemoveRange_StoreID : StoreID;
  RemoveRange_Stats : Stats;
}.

Record SplitRangeEvent := { SplitRange_StoreID : StoreID }.
Record MergeRangeEvent := { MergeRange_StoreID : StoreID }.
Record StartStoreEvent := { StartStore_StoreID : StoreID }.
Record BeginScanRangesEvent := { BeginScanRanges_StoreID : StoreID }.
Record EndScanRangesEvent := { EndScanRanges_StoreID : StoreID }.

End Events.

Arguments AddRangeEvent : clear implicits.
Arguments UpdateRangeEvent : clear implicits.
Arguments RemoveRangeEvent : clear implicits.

(** ** rangeDataAccumulator *)

Section Accumulator.
Context {Stats : Type} `{!MVCCStatsOps Stats}.

Record rangeDataAccumulator := {
  stats : Stats;
  rangeCount : Z;
  isScanning : bool;
  seenScan : option (gset Z);
}.

(** The zero value of the struct, as [&StoreStatusMonitor{ID: id}]
    leaves it. *)
Definition zero_rangeDataAccumulator : rangeDataAccumulator :=
  {| stats := MVCCStats_zero; rangeCount := 0;
     isScanning := false; seenScan := None |}.

(** [_, seen := m[k]] on a map that may be nil. *)
Definition seen_in (m : option (gset Z)) (k : Z) : bool :=
  match m with
  | Some s => bool_decide (k ∈ s)
  | None => false
  end.

(** [m[k] = struct{}{}]: panics ([None]) on a nil map. *)
Definition map_assign (m : option (gset Z)) (k : Z) : option (gset Z) :=
  match m with
  | Some s => Some ({[ k ]} ∪ s)
  | None => None
  end.

(** [addRange]; [None] is the panic of assigning into a nil map. *)
Definition addRange (rda : rangeDataAccumulator) (event : AddRangeEvent Stats)
  : option rangeDataAccumulator :=
  if isScanning rda then
    match map_assign (seenScan rda) (RaftID (AddRange_Desc event)) with
    | Some seen' =>
        Some {| stats := MVCCStats_Add (stats rda) (AddRange_Stats event);
                rangeCount := Int64.incr (rangeCount rda);
                isScanning := isScanning rda;
                seenScan := Some seen' |}
    | None => None
    end
  else Some rda.

Definition updateRange (rda : rangeDataAccumulator)
    (event : UpdateRangeEvent Stats) : rangeDataAccumulator :=
  let added :=
    {| stats := MVCCStats_Add (stats rda) (UpdateRange_Delta event);
       rangeCount := rangeCount rda;
       isScanning := isScanning rda;
       seenScan := seenScan rda |} in
  if isScanning rda then
    (* Skip if we are in an active scan and have not yet accumulated the
       data for this range. *)
    if negb (seen_in (seenScan rda) (RaftID (UpdateRange_Desc event)))
    then rda
    else added
  else added.

Definition removeRange (rda : rangeDataAccumulator)
    (event : RemoveRangeEvent Stats) : rangeDataAccumulator :=
  {| stats := MVCCStats_Subtract (stats rda) (RemoveRange_Stats event);
     rangeCount := Int64.decr (rangeCount rda);
     isScanning := isScanning rda;
     seenScan := seenScan rda |}.

Definition splitRange (rda : rangeDataAccumulator) (event : SplitRangeEvent)
  : rangeDataAccumulator :=
  {| stats := stats rda;
     rangeCount := Int64.incr (rangeCount rda);
     isScanning := isScanning rda;
     seenScan := seenScan rda |}.

Definition mergeRange (rda : rangeDataAccumulator) (event : MergeRangeEvent)
  : rangeDataAccumulator :=
  {| stats := stats rda;
     rangeCount := Int64.decr (rangeCount rda);
     isScanning := isScanning rda;
     seenScan := seenScan rda |}.

Definition beginScanRanges (rda : rangeDataAccumulator)
    (event : BeginScanRangesEvent) : rangeDataAccumulator :=
  {| stats := MVCCStats_zero;
     rangeCount := 0;
     isScanning := true;
     seenScan := Some ∅ |}.

Definition endScanRanges (rda : rangeDataAccumulator)
    (event : EndScanRangesEvent) : rangeDataAccumulator :=
  {| stats := stats rda;
     rangeCount := rangeCount rda;
     isScanning := false;
     seenScan := None |}.

End Accumulator.

Arguments rangeDataAccumulator : clear implicits.

(** ** StoreStatusMonitor and NodeStatusMonitor *)

(** Addresses of the [StoreStatusMonitor] values allocated by
    [&StoreStatusMonitor{...}]. *)
Abbreviation loc := positive (only parsing).

Section Registry.
Context {Stats : Type} `{!MVCCStatsOps Stats}.

(** The struct embeds its accumulator and carries the store id. *)
Record StoreStatusMonitor := {
  accumulator : rangeDataAccumulator Stats;
  ID : StoreID;
}.

(** [stores] is the field [map[proto.StoreID]*StoreStatusMonitor]; [heap]
    is the memory its pointers point into. *)
Record NodeStatusMonitor := {
  stores : gmap Z positive;
  heap : gmap positive StoreStatusMonitor;
}.

Definition NewNodeStatusMonitor : NodeStatusMonitor :=
  {| stores := ∅; heap := ∅ |}.

(** [&StoreStatusMonitor{ID: id}]: a new cell, at an address not in use,
    with every other field at its zero value. *)
Definition alloc_StoreStatusMonitor (nsm : NodeStatusMonitor) (id : StoreID)
  : gmap positive StoreStatusMonitor * loc :=
  let s := fresh (dom (heap nsm)) in
  (<[ s := {| accumulator := zero_rangeDataAccumulator; ID := id |} ]>
     (heap nsm), s).

(** [GetStoreMonitor]: the lookup under the read lock, and on a miss the
    second lookup under the write lock before the monitor is created. *)
Definition GetStoreMonitor (nsm : NodeStatusMonitor) (id : StoreID)
  : NodeStatusMonitor * loc :=
  match stores nsm !! id with
  | Some s => (nsm, s)
  | None =>
      match stores nsm !! id with
      | Some s => (nsm, s)
      | None =>
          let '(h, s) := alloc_StoreStatusMonitor nsm id in
          ({| stores := <[ id := s ]> (stores nsm); heap := h |}, s)
      end
  end.

(** A method of the embedded accumulator called through a
    [*StoreStatusMonitor].  [None] when the pointer is not a live cell (Go
    has no such pointers; the invariant below rules them out) or when
    the method panics. *)
Definition call_method (f : rangeDataAccumulator Stats ->
                            option (rangeDataAccumulator Stats))
    (r : NodeStatusMonitor * loc) : option NodeStatusMonitor :=
  let '(nsm, s) := r in
  ssm ← heap nsm !! s;
  rda ← f (accumulator ssm);
  Some {| stores := stores nsm;
          heap := <[ s := {| accumulator := rda; ID := ID ssm |} ]>
                    (heap nsm) |}.

Definition OnAddRange (nsm : NodeStatusMonitor) (event : AddRangeEvent Stats)
  : option NodeStatusMonitor :=
  call_method (fun rda => addRange rda event)
              (GetStoreMonitor nsm (AddRange_StoreID event)).

Definition OnUpdateRange (nsm : NodeStatusMonitor)
    (event : UpdateRangeEvent Stats) : option NodeStatusMonitor :=
  call_method (fun rda => Some (updateRange rda event))
              (GetStoreMonitor nsm (UpdateRange_StoreID event)).

Definition OnRemoveRange (nsm : NodeStatusMonitor)
    (event : RemoveRangeEvent Stats) : option NodeStatusMonitor :=
  call_method (fun rda => Some (removeRange rda event))
              (GetStoreMonitor nsm (RemoveRange_StoreID event)).

Definition OnSplitRange (nsm : NodeStatusMonitor) (event : SplitRangeEvent)
  : option NodeStatusMonitor :=
  call_method (fun rda => Some (splitRange rda event))
              (GetStoreMonitor nsm (SplitRange_StoreID event)).

Definition OnMergeRange (nsm : NodeStatusMonitor) (event : MergeRangeEvent)
  : option NodeStatusMonitor :=
  call_method (fun rda => Some (mergeRange rda event))
              (GetStoreMonitor nsm (MergeRange_StoreID event)).

Definition OnStartStore (nsm : NodeStatusMonitor) (event : StartStoreEvent)
  : option NodeStatusMonitor :=
  Some (GetStoreMonitor nsm (StartStore_StoreID event)).1.

Definition OnBeginScanRanges (nsm : NodeStatusMonitor)
    (event : BeginScanRangesEvent) : option NodeStatusMonitor :=
  call_method (fun rda => Some (beginScanRanges rda event))
              (GetStoreMonitor nsm (BeginScanRanges_StoreID event)).

Definition OnEndScanRanges (nsm : NodeStatusMonitor)
    (event : EndScanRangesEvent) : option NodeStatusMonitor :=
  call_method (fun rda => Some (endScanRanges rda event))
              (GetStoreMonitor nsm (EndScanRanges_StoreID event)).

(** *** Events as one type *)

Inductive StoreEvent :=
| EvAddRange (e : AddRangeEvent Stats)
| EvUpdateRange (e : UpdateRangeEvent Stats)
| EvRemoveRange (e : RemoveRangeEvent Stats)
| EvSplitRange (e : SplitRangeEvent)
| EvMergeRange (e : MergeRangeEvent)
| EvStartStore (e : StartStoreEvent)
| EvBeginScanRanges (e : BeginScanRangesEvent)
| EvEndScanRanges (e : EndScanRangesEvent).

Definition event_StoreID (ev : StoreEvent) : StoreID :=
  match ev with
  | EvAddRange e => AddRange_StoreID e
  | EvUpdateRange e => UpdateRange_StoreID e
  | EvRemoveRange e => RemoveRange_StoreID e
  | EvSplitRange e => SplitRange_StoreID e
  | EvMergeRange e => MergeRange_StoreID e
  | EvStartStore e => StartStore_StoreID e
  | EvBeginScanRanges e => BeginScanRanges_StoreID e
  | EvEndScanRanges e => EndScanRanges_StoreID e
  end.

(** Modelled from the spec: [storage.ProcessStoreEvents], which the feed
    goroutine runs, is outside this file; the spec's [dispatch] forwards
    each event to the listener method of its kind. *)
Definition dispatch (nsm : NodeStatusMonitor) (ev : StoreEvent)
  : option NodeStatusMonitor :=
  match ev with
  | EvAddRange e => OnAddRange nsm e
  | EvUpdateRange e => OnUpdateRange nsm e
  | EvRemoveRange e => OnRemoveRange nsm e
  | EvSplitRange e => OnSplitRange nsm e
  | EvMergeRange e => OnMergeRange nsm e
  | EvStartStore e => OnStartStore nsm e
  | EvBeginScanRanges e => OnBeginScanRanges nsm e
  | EvEndScanRanges e => OnEndScanRanges nsm e
  end.

(** What the listener method for [ev] does to the accumulator of the
    event's store. *)
Definition accumulate (rda : rangeDataAccumulator Stats) (ev : StoreEvent)
  : option (rangeDataAccumulator Stats) :=
  match ev with
  | EvAddRange e => addRange rda e
  | EvUpdateRange e => Some (updateRange rda e)
  | EvRemoveRange e => Some (removeRange rda e)
  | EvSplitRange e => Some (splitRange rda e)
  | EvMergeRange e => Some (mergeRange rda e)
  | EvStartStore e => Some rda
  | EvBeginScanRanges e => Some (beginScanRanges rda e)
  | EvEndScanRanges e => Some (endScanRanges rda e)
  end.

(** A stream of events delivered in order to one accumulator. *)
Fixpoint accumulate_all (rda : rangeDataAccumulator Stats)
    (evs : list StoreEvent) : option (rangeDataAccumulator Stats) :=
  match evs with
  | [] => Some rda
  | ev :: evs' => rda' ← accumulate rda ev; accumulate_all rda' evs'
  end.

End Registry.

Arguments StoreStatusMonitor : clear implicits.
Arguments NodeStatusMonitor : clear implicits.
Arguments StoreEvent : clear implicits.

(** ** VisitStoreMonitors *)

(** Go leaves the order in which [range] walks a map unspecified.  An
    iteration order is any way of listing each map its entries, every
    entry once. *)
Record RangeOrder := {
  range_over : gmap Z positive -> list (Z * positive);
  range_over_perm : forall m, range_over m ≡ₚ map_to_list m;
}.

(** One possible order: the one in which stdpp lists a map. *)
Definition listing_order : RangeOrder :=
  {| range_over := map_to_list;
     range_over_perm := fun m => reflexivity (map_to_list m) |}.

(** Another one: the same listing, walked from the far end. *)
Definition reverse_order : RangeOrder :=
  {| range_over := fun m => rev (map_to_list m);
     range_over_perm := fun m =>
       Permutation_sym (Permutation_rev (map_to_list m)) |}.

Section Visit.
Context {Stats : Type} `{!MVCCStatsOps Stats}.
Context {V : Type}.

(** A visitor receives the pointer; it may read the monitor behind it,
    write to it, and update what it has captured (a value of type [V]). *)
Definition visitor : Type :=
  positive -> StoreStatusMonitor Stats -> V -> StoreStatusMonitor Stats * V.

(** A visitor that only reads. *)
Definition observer (f : positive -> StoreStatusMonitor Stats -> V -> V)
  : visitor :=
  fun s ssm v => (ssm, f s ssm v).

(** The body of the [for _, ssm := range nsm.stores] loop, over the
    entries in the order the iteration yields them. *)
Fixpoint visit_each (f : visitor) (entries : list (Z * positive))
    (h : gmap positive (StoreStatusMonitor Stats)) (v : V)
  : option (gmap positive (StoreStatusMonitor Stats) * V) :=
  match entries with
  | [] => Some (h, v)
  | (_, s) :: entries' =>
      ssm ← h !! s;
      let '(ssm', v') := f s ssm v in
      visit_each f entries' (<[ s := ssm' ]> h) v'
  end.

Definition VisitStoreMonitors (order : RangeOrder) (nsm : NodeStatusMonitor Stats)
    (f : visitor) (v : V) : option (NodeStatusMonitor Stats * V) :=
  r ← visit_each f (range_over order (stores nsm)) (heap nsm) v;
  Some ({| stores := stores nsm; heap := r.1 |}, r.2).

(** *** Sequences of calls on a NodeStatusMonitor *)

(** The calls a client and the feed goroutine make.  The visitors of a
    call sequence are observers: code outside the package cannot reach
    the accumulator's fields. *)
Inductive call :=
| CallGetStoreMonitor (id : StoreID)
| CallVisitStoreMonitors (order : RangeOrder)
    (f : positive -> StoreStatusMonitor Stats -> V -> V)
| CallProcessEvent (ev : StoreEvent Stats).

Definition do_call (st : NodeStatusMonitor Stats * V) (c : call)
  : option (NodeStatusMonitor Stats * V) :=
  match c with
  | CallGetStoreMonitor id => Some ((GetStoreMonitor st.1 id).1, st.2)
  | CallVisitStoreMonitors order f =>
      VisitStoreMonitors order st.1 (observer f) st.2
  | CallProcessEvent ev => nsm ← dispatch st.1 ev; Some (nsm, st.2)
  end.

Fixpoint do_calls (st : NodeStatusMonitor Stats * V) (cs : list call)
  : option (NodeStatusMonitor Stats * V) :=
  match cs with
  | [] => Some st
  | c :: cs' => st' ← do_call st c; do_calls st' cs'
  end.

End Visit.

Arguments visitor : clear implicits.
Arguments call : clear implicits.

(** ** Invariants *)

Section Invariants.
Context {Stats : Type} `{!MVCCStatsOps Stats}.

(** The set a seen-map stands for; the nil map has no keys. *)
Definition seen_set (m : option (gset Z)) : gset Z := default ∅ m.

(** The (pointer, monitor) pairs a walk over [entries] meets in [h]. *)
Definition visits_of (h : gmap positive (StoreStatusMonitor Stats))
    (entries : list (Z * positive))
  : list (positive * StoreStatusMonitor Stats) :=
  omap (fun e => (fun ssm => (e.2, ssm)) <$> h !! e.2) entries.

(** A visitor that notes the store id of every monitor it is shown. *)
Definition note_ID (s : positive) (ssm : StoreStatusMonitor Stats)
    (log : list StoreID) : list StoreID :=
  ID ssm :: log.

(** A scanning accumulator has an allocated seen-set. *)
Definition rda_ok (rda : rangeDataAccumulator Stats) : Prop :=
  isScanning rda = true -> is_Some (seenScan rda).

(** The registry's pointers are live, each monitor carries the id it is
    registered under, no two ids share a monitor, and every monitor's
    accumulator is well formed. *)
Record nsm_ok (nsm : NodeStatusMonitor Stats) : Prop := {
  ok_live : forall id s, stores nsm !! id = Some s ->
            exists ssm, heap nsm !! s = Some ssm /\ ID ssm = id;
  ok_rda : forall s ssm, heap nsm !! s = Some ssm -> rda_ok (accumulator ssm);
}.

(** Whether the latest scan boundary in a stream of events is a
    [BeginScanRanges] (starting from [b] when there is none). *)
Fixpoint scan_open (b : bool) (evs : list (StoreEvent Stats)) : bool :=
  match evs with
  | [] => b
  | EvBeginScanRanges _ :: evs' => scan_open true evs'
  | EvEndScanRanges _ :: evs' => scan_open false evs'
  | _ :: evs' => scan_open b evs'
  end.

Definition is_EndScanRanges (ev : StoreEvent Stats) : Prop :=
  match ev with EvEndScanRanges _ => True | _ => False end.

(** The stream has a [BeginScanRanges] with no [EndScanRanges] after it. *)
Definition inside_scan (evs : list (StoreEvent Stats)) : Prop :=
  exists pre e post,
    evs = pre ++ EvBeginScanRanges e :: post /\
    Forall (fun ev => ~ is_EndScanRanges ev) post.

End Invariants.

(** ** Streams of events and per-store views *)

Section Streams.
Context {Stats : Type} `{!MVCCStatsOps Stats}.

(** The accumulator of the monitor registered for a store, if any. *)
Definition store_accumulator (nsm : NodeStatusMonitor Stats) (id : StoreID)
  : option (rangeDataAccumulator Stats) :=
  s ← stores nsm !! id;
  ssm ← heap nsm !! s;
  Some (accumulator ssm).

(** The listener methods run for the events of a stream, one after the
    other, as the feed goroutine started by [StartMonitorFeed] does. *)
Fixpoint dispatch_all (nsm : NodeStatusMonitor Stats)
    (evs : list (StoreEvent Stats)) : option (NodeStatusMonitor Stats) :=
  match evs with
  | [] => Some nsm
  | ev :: evs' => nsm' ← dispatch nsm ev; dispatch_all nsm' evs'
  end.

(** The events of a stream that name a given store, in stream order. *)
Definition for_store (id : StoreID) (evs : list (StoreEvent Stats))
  : list (StoreEvent Stats) :=
  filter (fun ev => event_StoreID ev = id) evs.

(** AddRange and UpdateRange, the events a store sends during a scan. *)
Definition is_scan_event (ev : StoreEvent Stats) : Prop :=
  match ev with
  | EvAddRange _ | EvUpdateRange _ => True
  | _ => False
  end.

(** The range ids of the AddRange events of a stream. *)
Definition added_ids (evs : list (StoreEvent Stats)) : list Z :=
  omap (fun ev => match ev with
                  | EvAddRange e => Some (RaftID (AddRange_Desc e))
                  | _ => None
                  end) evs.

(** Every monitor in the heap is the one registered for its store id. *)
Definition no_orphans (nsm : NodeStatusMonitor Stats) : Prop :=
  forall s ssm, heap nsm !! s = Some ssm -> stores nsm !! ID ssm = Some s.

(** A visitor that counts the monitors it is shown. *)
Definition count_visit (s : positive) (ssm : StoreStatusMonitor Stats)
    (n : nat) : nat := S n.

(** A visitor that adds up the range counts, as a node-wide total. *)
Definition sum_rangeCount (s : positive) (ssm : StoreStatusMonitor Stats)
    (total : Z) : Z := total + rangeCount (accumulator ssm).

End Streams.

(** * Properties *)

(** ** int64 arithmetic *)

Lemma int64_wrap_in_range z : Int64.in_range (Int64.wrap z).
Proof.
  unfold Int64.in_range, Int64.wrap, Int64.min_int, Int64.max_int.
  pose proof (Z.mod_pos_bound (z + 2 ^ 63) (2 ^ 64) ltac:(lia)). lia.
Qed.

Lemma int64_wrap_id z : Int64.in_range z -> Int64.wrap z = z.
Proof.
  unfold Int64.in_range, Int64.wrap, Int64.min_int, Int64.max_int. intros Hz.
  rewrite Z.mod_small by lia. lia.
Qed.

(** Away from the largest int64, [x++] is the mathematical successor. *)
Lemma int64_incr_exact z :
  Int64.in_range z -> z < Int64.max_int -> Int64.incr z = z + 1.
Proof.
  unfold Int64.incr, Int64.add. intros Hz Hlt. apply int64_wrap_id.
  unfold Int64.in_range, Int64.min_int, Int64.max_int in *. lia.
Qed.

(** Away from the smallest int64, [x--] is the mathematical predecessor. *)
Lemma int64_decr_exact z :
  Int64.in_range z -> Int64.min_int < z -> Int64.decr z = z - 1.
Proof.
  unfold Int64.decr, Int64.sub. intros Hz Hlt. apply int64_wrap_id.
  unfold Int64.in_range, Int64.min_int, Int64.max_int in *. lia.
Qed.

Lemma int64_incr_in_range z : Int64.in_range (Int64.incr z).
Proof. apply int64_wrap_in_range. Qed.

Lemma int64_decr_in_range z : Int64.in_range (Int64.decr z).
Proof. apply int64_wrap_in_range. Qed.

Lemma int64_decr_incr z : Int64.in_range z -> Int64.decr (Int64.incr z) = z.
Proof.
  intros Hz.
  unfold Int64.in_range, Int64.min_int, Int64.max_int in Hz.
  destruct (Z.eq_dec z (2 ^ 63 - 1)) as [-> | Hne]; [reflexivity |].
  rewrite int64_incr_exact, int64_decr_exact;
    unfold Int64.in_range, Int64.min_int, Int64.max_int; lia.
Qed.

(** ** The accumulator's methods, one by one *)

Section AccumulatorFacts.
Context {Stats : Type} `{!MVCCStatsOps Stats}.
Implicit Types (rda : rangeDataAccumulator Stats).

Lemma seen_in_spec m k : seen_in m k = true <-> k ∈ seen_set m.
Proof.
  destruct m as [s |]; simpl.
  - apply bool_decide_eq_true.
  - split; [discriminate | set_solver].
Qed.

Lemma seen_in_false m k : seen_in m k = false <-> k ∉ seen_set m.
Proof.
  rewrite <- seen_in_spec. destruct (seen_in m k); split; congruence.
Qed.

Lemma updateRange_skipped rda ev :
  isScanning rda = true ->
  RaftID (UpdateRange_Desc ev) ∉ seen_set (seenScan rda) ->
  updateRange rda ev = rda.
Proof.
  intros Hscan Hnew. apply seen_in_false in Hnew.
  unfold updateRange. by rewrite Hscan, Hnew.
Qed.

Lemma updateRange_applied rda ev :
  isScanning rda = false \/
  RaftID (UpdateRange_Desc ev) ∈ seen_set (seenScan rda) ->
  updateRange rda ev =
    {| stats := MVCCStats_Add (stats rda) (UpdateRange_Delta ev);
       rangeCount := rangeCount rda;
       isScanning := isScanning rda;
       seenScan := seenScan rda |}.
Proof.
  unfold updateRange. intros [Hidle | Hseen].
  - by rewrite Hidle.
  - apply seen_in_spec in Hseen. rewrite Hseen. by destruct (isScanning rda).
Qed.

Lemma addRange_idle rda ev : isScanning rda = false -> addRange rda ev = Some rda.
Proof. unfold addRange. by intros ->. Qed.

Lemma addRange_scanning rda ev s :
  isScanning rda = true ->
  seenScan rda = Some s ->
  addRange rda ev =
    Some {| stats := MVCCStats_Add (stats rda) (AddRange_Stats ev);
            rangeCount := Int64.incr (rangeCount rda);
            isScanning := true;
            seenScan := Some ({[ RaftID (AddRange_Desc ev) ]} ∪ s) |}.
Proof. unfold addRange. by intros -> ->. Qed.

Lemma addRange_nil_panics rda ev :
  isScanning rda = true -> seenScan rda = None -> addRange rda ev = None.
Proof. unfold addRange. by intros -> ->. Qed.

Lemma updateRange_isScanning rda ev :
  isScanning (updateRange rda ev) = isScanning rda.
Proof.
  unfold updateRange. destruct (isScanning rda) eqn:Hs; [| done].
  by destruct (negb _).
Qed.

Lemma updateRange_seenScan rda ev :
  seenScan (updateRange rda ev) = seenScan rda.
Proof.
  unfold updateRange. destruct (isScanning rda); [| done].
  by destruct (negb _).
Qed.

Lemma updateRange_rangeCount rda ev :
  rangeCount (updateRange rda ev) = rangeCount rda.
Proof.
  unfold updateRange. destruct (isScanning rda); [| done].
  by destruct (negb _).
Qed.

(** Every method keeps a scanning accumulator's seen-set allocated, and
    on such an accumulator no method panics. *)
Lemma accumulate_ok rda ev :
  rda_ok rda -> exists rda', accumulate rda ev = Some rda' /\ rda_ok rda'.
Proof.
  unfold rda_ok. intros Hok.
  destruct ev as [e | e | e | e | e | e | e | e]; simpl;
    try (eexists; split; [reflexivity | by simpl; eauto]).
  - unfold addRange. destruct (isScanning rda) eqn:Hs.
    + destruct (Hok eq_refl) as [s ->]. simpl. eexists; split; [done |].
      simpl. eauto.
    + eexists; split; [done |]. by rewrite Hs.
  - eexists; split; [done |].
    by rewrite updateRange_isScanning, updateRange_seenScan.
Qed.

Lemma zero_rda_ok : rda_ok (zero_rangeDataAccumulator (Stats := Stats)).
Proof. unfold rda_ok. simpl. discriminate. Qed.

Lemma accumulate_isScanning rda ev rda' :
  accumulate rda ev = Some rda' ->
  isScanning rda' = scan_open (isScanning rda) [ev].
Proof.
  destruct ev as [e | e | e | e | e | e | e | e]; simpl;
    try (intros [= <-]; reflexivity).
  - unfold addRange. destruct (isScanning rda) eqn:Hs.
    + destruct (map_assign _ _); [| discriminate]. by intros [= <-].
    + by intros [= <-].
  - intros [= <-]. apply updateRange_isScanning.
Qed.

Lemma scan_open_cons b (ev : StoreEvent Stats) evs :
  scan_open b (ev :: evs) = scan_open (scan_open b [ev]) evs.
Proof. by destruct ev. Qed.

(** A stream of events runs to completion on a well-formed accumulator,
    and leaves it scanning exactly when the latest scan boundary of the
    stream is a begin. *)
Lemma accumulate_all_ok evs : forall rda,
  rda_ok rda ->
  exists rda', accumulate_all rda evs = Some rda' /\ rda_ok rda' /\
               isScanning rda' = scan_open (isScanning rda) evs.
Proof.
  induction evs as [| ev evs IH]; intros rda Hok.
  - exists rda. by simpl.
  - destruct (accumulate_ok rda ev Hok) as (rda1 & Hstep & Hok1).
    destruct (IH rda1 Hok1) as (rda' & Hrun & Hok' & Hscan).
    exists rda'. simpl accumulate_all. rewrite Hstep. simpl.
    split_and!; [done | done |].
    rewrite Hscan, (accumulate_isScanning _ _ _ Hstep).
    symmetry. apply scan_open_cons.
Qed.

Lemma scan_open_app b (l1 l2 : list (StoreEvent Stats)) :
  scan_open b (l1 ++ l2) = scan_open (scan_open b l1) l2.
Proof.
  revert b. induction l1 as [| x l1 IH]; intros b; [done |].
  by destruct x; simpl; rewrite IH.
Qed.

(** [scan_open] decides [inside_scan]. *)
Lemma scan_open_inside (evs : list (StoreEvent Stats)) :
  scan_open false evs = true <-> inside_scan evs.
Proof.
  split.
  - induction evs as [| ev evs IH] using rev_ind; [discriminate |].
    rewrite scan_open_app. intros Hopen.
    destruct (decide (scan_open false evs = true)) as [Hin | Hout].
    + destruct (IH Hin) as (pre & e' & post & -> & Hp).
      rewrite Hin in Hopen.
      destruct ev as [e | e | e | e | e | e | e | e];
        try discriminate;
        (eexists pre, e', (post ++ [_]);
         split; [by rewrite <- app_assoc |];
         apply Forall_app; split; [done |];
         apply Forall_singleton; by intros []).
    + apply not_true_is_false in Hout. rewrite Hout in Hopen.
      destruct ev as [e | e | e | e | e | e | e | e]; try discriminate.
      exists evs, e, []. by split.
  - intros (pre & e & post & -> & Hpost).
    rewrite scan_open_app. simpl.
    induction post as [| ev post IH]; [done |].
    inversion Hpost as [| ? ? Hev Hrest]; subst.
    destruct ev; simpl in *; auto.
Qed.

End AccumulatorFacts.

(** ** The registry *)

Section RegistryFacts.
Context {Stats : Type} `{!MVCCStatsOps Stats}.
Implicit Types (nsm : NodeStatusMonitor Stats) (id : StoreID) (s : positive).

Lemma GetStoreMonitor_hit nsm id s :
  stores nsm !! id = Some s -> GetStoreMonitor nsm id = (nsm, s).
Proof. unfold GetStoreMonitor. by intros ->. Qed.

Lemma GetStoreMonitor_miss nsm id :
  stores nsm !! id = None ->
  GetStoreMonitor nsm id =
    ({| stores := <[ id := fresh (dom (heap nsm)) ]> (stores nsm);
        heap := <[ fresh (dom (heap nsm)) :=
                     {| accumulator := zero_rangeDataAccumulator; ID := id |} ]>
                  (heap nsm) |},
     fresh (dom (heap nsm))).
Proof. unfold GetStoreMonitor. by intros ->. Qed.

Lemma fresh_not_live nsm : heap nsm !! fresh (dom (heap nsm)) = None.
Proof. apply not_elem_of_dom, is_fresh. Qed.

(** The monitor returned is the one registered afterwards. *)
Lemma GetStoreMonitor_registered nsm id :
  stores (GetStoreMonitor nsm id).1 !! id = Some (GetStoreMonitor nsm id).2.
Proof.
  destruct (stores nsm !! id) as [s |] eqn:Hid.
  - by rewrite (GetStoreMonitor_hit _ _ _ Hid).
  - rewrite (GetStoreMonitor_miss _ _ Hid). simpl. apply lookup_insert_eq.
Qed.

(** Registered entries stay as they are. *)
Lemma GetStoreMonitor_mono nsm id id' s :
  stores nsm !! id' = Some s ->
  stores (GetStoreMonitor nsm id).1 !! id' = Some s.
Proof.
  intros Hid'. destruct (stores nsm !! id) as [s0 |] eqn:Hid.
  - by rewrite (GetStoreMonitor_hit _ _ _ Hid).
  - rewrite (GetStoreMonitor_miss _ _ Hid). simpl.
    rewrite lookup_insert_ne; [done | congruence].
Qed.

Lemma NewNodeStatusMonitor_ok : nsm_ok (NewNodeStatusMonitor (Stats := Stats)).
Proof. split; simpl; intros *; by rewrite lookup_empty. Qed.

Lemma GetStoreMonitor_ok nsm id : nsm_ok nsm -> nsm_ok (GetStoreMonitor nsm id).1.
Proof.
  intros [Hlive Hrda]. destruct (stores nsm !! id) as [s0 |] eqn:Hid.
  - by rewrite (GetStoreMonitor_hit _ _ _ Hid).
  - rewrite (GetStoreMonitor_miss _ _ Hid).
    pose proof (fresh_not_live nsm) as Hfresh.
    split; simpl.
    + intros id' s'. destruct (decide (id = id')) as [<- | Hne].
      * rewrite lookup_insert_eq. intros [= <-].
        eexists. by rewrite lookup_insert_eq.
      * rewrite lookup_insert_ne by done. intros Hs'.
        destruct (Hlive _ _ Hs') as (ssm & Hssm & HID).
        exists ssm. rewrite lookup_insert_ne; [done | congruence].
    + intros s' ssm. destruct (decide (fresh (dom (heap nsm)) = s')) as [<- | Hne].
      * rewrite lookup_insert_eq. intros [= <-]. apply zero_rda_ok.
      * rewrite lookup_insert_ne by done. apply Hrda.
Qed.

(** No two store ids share a monitor. *)
Lemma nsm_ok_inj nsm id1 id2 s :
  nsm_ok nsm -> stores nsm !! id1 = Some s -> stores nsm !! id2 = Some s ->
  id1 = id2.
Proof.
  intros [Hlive _] H1 H2.
  destruct (Hlive _ _ H1) as (ssm1 & Hs1 & <-).
  destruct (Hlive _ _ H2) as (ssm2 & Hs2 & <-).
  congruence.
Qed.

Lemma call_method_ok f nsm s :
  nsm_ok nsm ->
  is_Some (heap nsm !! s) ->
  (forall rda, rda_ok rda -> exists rda', f rda = Some rda' /\ rda_ok rda') ->
  exists nsm', call_method f (nsm, s) = Some nsm' /\ nsm_ok nsm' /\
               stores nsm' = stores nsm /\
               dom (heap nsm') = dom (heap nsm).
Proof.
  intros [Hlive Hrda] [ssm Hssm] Hf.
  destruct (Hf _ (Hrda _ _ Hssm)) as (rda' & Hrun & Hok').
  unfold call_method. rewrite Hssm. simpl. rewrite Hrun. simpl.
  eexists. split; [reflexivity |]. split_and!; simpl; [| done |].
  - split; simpl.
    + intros id' s' Hs'. destruct (Hlive _ _ Hs') as (ssm' & Hssm' & HID).
      destruct (decide (s = s')) as [<- | Hne].
      * rewrite lookup_insert_eq. eexists. split; [done |]. simpl. congruence.
      * rewrite lookup_insert_ne by done. eauto.
    + intros s' ssm'. destruct (decide (s = s')) as [<- | Hne].
      * rewrite lookup_insert_eq. by intros [= <-].
      * rewrite lookup_insert_ne by done. apply Hrda.
  - by apply dom_insert_lookup_L.
Qed.

(** Every listener method is what [accumulate] says, applied to the
    monitor [GetStoreMonitor] returns ([OnStartStore] stops there). *)
Lemma dispatch_accumulate nsm ev :
  (forall e, ev <> EvStartStore e) ->
  dispatch nsm ev =
    call_method (fun rda => accumulate rda ev)
                (GetStoreMonitor nsm (event_StoreID ev)).
Proof. intros Hne. destruct ev; try done. by destruct (Hne e). Qed.

(** On a well-formed registry no event panics; the registry afterwards
    is the one [GetStoreMonitor] left. *)
Lemma dispatch_ok nsm ev :
  nsm_ok nsm ->
  exists nsm', dispatch nsm ev = Some nsm' /\ nsm_ok nsm' /\
               stores nsm' = stores (GetStoreMonitor nsm (event_StoreID ev)).1.
Proof.
  intros Hok.
  pose proof (GetStoreMonitor_ok nsm (event_StoreID ev) Hok) as Hok1.
  pose proof (GetStoreMonitor_registered nsm (event_StoreID ev)) as Hreg.
  assert (Hkind : (exists e, ev = EvStartStore e) \/
                  (forall e, ev <> EvStartStore e))
    by (destruct ev; first [left; by eexists | by right]).
  destruct Hkind as [[e ->] | Hne].
  - eexists. by split_and!.
  - rewrite dispatch_accumulate by done.
    destruct (GetStoreMonitor nsm (event_StoreID ev)) as [nsm1 s] eqn:Hget.
    simpl in *.
    destruct (call_method_ok (fun rda => accumulate rda ev) nsm1 s Hok1)
      as (nsm' & Hrun & Hok' & Hstores & _).
    + destruct (ok_live _ Hok1 _ _ Hreg) as (ssm & Hssm & _). by exists ssm.
    + intros rda. apply accumulate_ok.
    + by exists nsm'.
Qed.

End RegistryFacts.

(** ** Walking the registry *)

Section VisitFacts.
Context {Stats : Type} `{!MVCCStatsOps Stats}.
Implicit Types (nsm : NodeStatusMonitor Stats) (order : RangeOrder).
Implicit Types (h : gmap positive (StoreStatusMonitor Stats)).
Implicit Types (entries : list (Z * positive)).

Lemma nsm_eta nsm : {| stores := stores nsm; heap := heap nsm |} = nsm.
Proof. by destruct nsm. Qed.

(** A read-only visitor leaves the heap alone and folds over the
    monitors in the order of the walk. *)
Lemma visit_each_observer {V} (f : positive -> StoreStatusMonitor Stats -> V -> V)
    entries h v :
  (forall e, e ∈ entries -> is_Some (h !! e.2)) ->
  visit_each (observer f) entries h v =
    Some (h, foldl (fun v x => f x.1 x.2 v) v (visits_of h entries)) /\
  (visits_of h entries).*1 = entries.*2.
Proof.
  revert v. induction entries as [| [id s] entries IH]; intros v Hlive; [done |].
  destruct (Hlive (id, s)) as [ssm Hssm]; [by left |].
  simpl in Hssm. unfold visits_of. simpl. rewrite Hssm. simpl.
  rewrite (insert_id h s ssm Hssm).
  destruct (IH (f s ssm v)) as [Hrun Hptrs].
  { intros e He. apply Hlive. by right. }
  split; [done |]. by f_equal.
Qed.

(** Any visitor is shown every entry: the walk does not stop early, no
    cell appears or disappears, and cells that are not walked over keep
    their contents. *)
Lemma visit_each_total {V} (f : visitor Stats V) entries h v :
  (forall e, e ∈ entries -> is_Some (h !! e.2)) ->
  exists h' v', visit_each f entries h v = Some (h', v') /\ dom h' = dom h /\
                (forall s, s ∉ entries.*2 -> h' !! s = h !! s).
Proof.
  revert h v. induction entries as [| [id s] entries IH]; intros h v Hlive.
  - by exists h, v.
  - destruct (Hlive (id, s)) as [ssm Hssm]; [by left |].
    simpl in *. rewrite Hssm. simpl.
    destruct (f s ssm v) as [ssm' v1].
    assert (Hdom : dom (<[ s := ssm' ]> h) = dom h)
      by (apply dom_insert_lookup_L; eauto).
    destruct (IH (<[ s := ssm' ]> h) v1) as (h' & v' & Hrun & Hdom' & Hrest).
    { intros e He. apply elem_of_dom. rewrite Hdom. apply elem_of_dom.
      apply Hlive. by right. }
    exists h', v'. split_and!; [done | congruence |].
    intros s' Hs'. apply not_elem_of_cons in Hs' as [Hne Hs'].
    rewrite (Hrest s' Hs'). by apply lookup_insert_ne.
Qed.

Lemma range_over_elem order (m : gmap Z positive) id s :
  (id, s) ∈ range_over order m <-> m !! id = Some s.
Proof. rewrite (range_over_perm order m). apply elem_of_map_to_list. Qed.

Lemma range_over_live order nsm e :
  nsm_ok nsm -> e ∈ range_over order (stores nsm) -> is_Some (heap nsm !! e.2).
Proof.
  intros Hok He. destruct e as [id s]. apply range_over_elem in He.
  destruct (ok_live _ Hok _ _ He) as (ssm & Hssm & _). by exists ssm.
Qed.

(** The pointers of a walk are the registered ones. *)
Lemma range_over_pointers order nsm s :
  s ∈ (range_over order (stores nsm)).*2 <->
  exists id, stores nsm !! id = Some s.
Proof.
  rewrite list_elem_of_fmap. split.
  - intros ([id s'] & -> & He). exists id. by apply range_over_elem in He.
  - intros [id Hid]. exists (id, s). split; [done |]. by apply range_over_elem.
Qed.

(** No pointer comes up twice in a walk. *)
Lemma range_over_NoDup order nsm :
  nsm_ok nsm -> NoDup (range_over order (stores nsm)).*2.
Proof.
  intros Hok. apply NoDup_fmap_2_strong.
  - intros [id1 s1] [id2 s2] H1 H2 Heq. simpl in Heq. subst s2.
    apply range_over_elem in H1, H2.
    by rewrite (nsm_ok_inj nsm id1 id2 s1 Hok H1 H2).
  - rewrite (range_over_perm order). apply NoDup_map_to_list.
Qed.

Lemma visits_of_lookup h entries s ssm :
  (s, ssm) ∈ visits_of h entries -> h !! s = Some ssm.
Proof.
  unfold visits_of. rewrite list_elem_of_omap.
  intros ([id s'] & _ & Hx). simpl in Hx.
  destruct (h !! s') eqn:Hs'; simpl in Hx; [| done].
  by injection Hx as <- <-.
Qed.

Lemma VisitStoreMonitors_observer {V} order nsm
    (f : positive -> StoreStatusMonitor Stats -> V -> V) v :
  nsm_ok nsm ->
  VisitStoreMonitors order nsm (observer f) v =
    Some (nsm, foldl (fun v x => f x.1 x.2 v) v
                 (visits_of (heap nsm) (range_over order (stores nsm)))).
Proof.
  intros Hok. unfold VisitStoreMonitors.
  destruct (visit_each_observer f (range_over order (stores nsm)) (heap nsm) v)
    as [-> _].
  { intros e. by apply range_over_live. }
  simpl. by rewrite nsm_eta.
Qed.

Lemma VisitStoreMonitors_total {V} order nsm (f : visitor Stats V) v :
  nsm_ok nsm ->
  exists nsm' v', VisitStoreMonitors order nsm f v = Some (nsm', v') /\
                  stores nsm' = stores nsm /\
                  dom (heap nsm') = dom (heap nsm) /\
                  (forall s, (forall id, stores nsm !! id <> Some s) ->
                             heap nsm' !! s = heap nsm !! s).
Proof.
  intros Hok. unfold VisitStoreMonitors.
  destruct (visit_each_total f (range_over order (stores nsm)) (heap nsm) v)
    as (h' & v' & -> & Hdom & Hrest).
  { intros e. by apply range_over_live. }
  simpl. eexists _, _. split_and!; [done | done | done |].
  intros s Hs. apply Hrest. rewrite range_over_pointers.
  intros [id Hid]. by apply (Hs id).
Qed.

(** *** Sequences of calls *)

Lemma do_call_ok {V} (st : NodeStatusMonitor Stats * V) (c : call Stats V) :
  nsm_ok st.1 ->
  exists st', do_call st c = Some st' /\ nsm_ok st'.1 /\
    (forall id s, stores st.1 !! id = Some s -> stores st'.1 !! id = Some s).
Proof.
  destruct st as [nsm v]. simpl. intros Hok.
  destruct c as [id | order f | ev]; simpl.
  - eexists. split; [done |]. simpl. split.
    + by apply GetStoreMonitor_ok.
    + intros id' s. apply GetStoreMonitor_mono.
  - rewrite VisitStoreMonitors_observer by done. eexists. by split.
  - destruct (dispatch_ok nsm ev Hok) as (nsm' & -> & Hok' & Hstores).
    simpl. eexists. split; [done |]. simpl. split; [done |].
    intros id' s. rewrite Hstores. apply GetStoreMonitor_mono.
Qed.

Lemma do_calls_ok {V} (cs : list (call Stats V)) :
  forall st : NodeStatusMonitor Stats * V,
  nsm_ok st.1 ->
  exists st', do_calls st cs = Some st' /\ nsm_ok st'.1 /\
    (forall id s, stores st.1 !! id = Some s -> stores st'.1 !! id = Some s).
Proof.
  induction cs as [| c cs IH]; intros st Hok.
  - exists st. by simpl.
  - destruct (do_call_ok st c Hok) as (st1 & Hstep & Hok1 & Hmono1).
    destruct (IH st1 Hok1) as (st' & Hrun & Hok' & Hmono).
    exists st'. simpl. rewrite Hstep. simpl. split_and!; [done | done |].
    intros id s Hs. by apply Hmono, Hmono1.
Qed.

End VisitFacts.

Section VisitLog.
Context {Stats : Type} `{!MVCCStatsOps Stats}.

Lemma foldl_note_ID (l : list (positive * StoreStatusMonitor Stats)) log :
  foldl (fun v x => note_ID x.1 x.2 v) log l =
  rev ((fun x => ID x.2) <$> l) ++ log.
Proof.
  revert log. induction l as [| x l IH]; intros log; [done |].
  simpl. rewrite IH. unfold note_ID. by rewrite <- app_assoc.
Qed.

Lemma visits_of_IDs (nsm : NodeStatusMonitor Stats) entries :
  nsm_ok nsm ->
  (forall e, e ∈ entries -> stores nsm !! e.1 = Some e.2) ->
  (fun x => ID x.2) <$> visits_of (heap nsm) entries = entries.*1.
Proof.
  intros Hok. induction entries as [| [id s] entries IH]; intros Hreg; [done |].
  destruct (ok_live _ Hok id s) as (ssm & Hssm & HID).
  { apply (Hreg (id, s)). by left. }
  unfold visits_of. simpl. rewrite Hssm. simpl. f_equal; [done |].
  apply IH. intros e He. apply Hreg. by right.
Qed.

(** The ids noted in one walk are the registered ids, in some order. *)
Lemma VisitStoreMonitors_note_ID order (nsm : NodeStatusMonitor Stats) :
  nsm_ok nsm ->
  exists log, VisitStoreMonitors order nsm (observer note_ID) [] = Some (nsm, log) /\
              log ≡ₚ (map_to_list (stores nsm)).*1.
Proof.
  intros Hok. eexists. split; [by apply VisitStoreMonitors_observer |].
  rewrite foldl_note_ID, app_nil_r, <- Permutation_rev.
  rewrite visits_of_IDs; [| done |].
  - by rewrite (range_over_perm order).
  - intros [id s]. apply range_over_elem.
Qed.

End VisitLog.

(** ** Claims about the accumulator *)

(** C1. [updateRange] during a scan, for a range whose id is not in the
    seen-set, returns the accumulator as it was: the delta is dropped.
    In every other case (not scanning, or the id is in the seen-set) it
    adds the delta to the totals and leaves the count, the mode and the
    seen-set alone.  The stream BeginScan; UpdateRange(1, +5);
    AddRange(1, 10); UpdateRange(1, +5); EndScan on a new accumulator
    ends with total 15 and count 1. *)
Theorem updateRange_baseline_gating :
  (forall (Stats : Type) (ops : MVCCStatsOps Stats)
          (rda : rangeDataAccumulator Stats) (ev : UpdateRangeEvent Stats),
      (isScanning rda = true /\
       RaftID (UpdateRange_Desc ev) ∉ seen_set (seenScan rda) ->
       updateRange rda ev = rda) /\
      (isScanning rda = false \/
       RaftID (UpdateRange_Desc ev) ∈ seen_set (seenScan rda) ->
       updateRange rda ev =
         {| stats := MVCCStats_Add (stats rda) (UpdateRange_Delta ev);
            rangeCount := rangeCount rda;
            isScanning := isScanning rda;
            seenScan := seenScan rda |})) /\
  (forall store : StoreID,
      accumulate_all (Stats := Z) zero_rangeDataAccumulator
        [ EvBeginScanRanges {| BeginScanRanges_StoreID := store |};
          EvUpdateRange {| UpdateRange_StoreID := store;
                           UpdateRange_Desc := {| RaftID := 1 |};
                           UpdateRange_Delta := 5 |};
          EvAddRange {| AddRange_StoreID := store;
                        AddRange_Desc := {| RaftID := 1 |};
                        AddRange_Stats := 10 |};
          EvUpdateRange {| UpdateRange_StoreID := store;
                           UpdateRange_Desc := {| RaftID := 1 |};
                           UpdateRange_Delta := 5 |};
          EvEndScanRanges {| EndScanRanges_StoreID := store |} ]
      = Some {| stats := 15; rangeCount := 1;
                isScanning := false; seenScan := None |}).
Proof.
  split.
  - intros Stats ops rda ev. split.
    + intros [Hscan Hnew]. by apply updateRange_skipped.
    + apply updateRange_applied.
  - intros store. vm_compute. reflexivity.
Qed.

(** C2. Outside scanning mode [addRange] returns the accumulator as it
    was; so whenever it changes anything, the accumulator is scanning,
    and then it records the range id, increments the count and adds
    the stats. *)
Theorem addRange_only_while_scanning
    (Stats : Type) (ops : MVCCStatsOps Stats)
    (rda : rangeDataAccumulator Stats) (ev : AddRangeEvent Stats) :
  (isScanning rda = false -> addRange rda ev = Some rda) /\
  (addRange rda ev <> Some rda -> isScanning rda = true) /\
  (forall s, isScanning rda = true -> seenScan rda = Some s ->
     addRange rda ev =
       Some {| stats := MVCCStats_Add (stats rda) (AddRange_Stats ev);
               rangeCount := Int64.incr (rangeCount rda);
               isScanning := true;
               seenScan := Some ({[ RaftID (AddRange_Desc ev) ]} ∪ s) |}).
Proof.
  split_and!.
  - apply addRange_idle.
  - intros Hchanged. destruct (isScanning rda) eqn:Hs; [done |].
    destruct Hchanged. by apply addRange_idle.
  - intros s. apply addRange_scanning.
Qed.

(** C3. [beginScanRanges] turns scanning on, zeroes the totals and the
    count and installs an empty seen-set, whatever the accumulator held;
    [endScanRanges] turns scanning off and drops the seen-set, keeping
    totals and count.  A new accumulator processes every stream of
    events to the end, and is then scanning exactly when the stream
    contains a BeginScanRanges with no EndScanRanges after it. *)
Theorem scan_mode_brackets
    (Stats : Type) (ops : MVCCStatsOps Stats) :
  (forall (rda : rangeDataAccumulator Stats) ev,
      beginScanRanges rda ev =
        {| stats := MVCCStats_zero; rangeCount := 0;
           isScanning := true; seenScan := Some ∅ |}) /\
  (forall (rda : rangeDataAccumulator Stats) ev,
      let rda' := endScanRanges rda ev in
      isScanning rda' = false /\ seenScan rda' = None /\
      stats rda' = stats rda /\ rangeCount rda' = rangeCount rda) /\
  (forall evs : list (StoreEvent Stats),
      exists rda, accumulate_all zero_rangeDataAccumulator evs = Some rda /\
                  (isScanning rda = true <-> inside_scan evs)).
Proof.
  split_and!.
  - done.
  - done.
  - intros evs.
    destruct (accumulate_all_ok evs _ zero_rda_ok) as (rda & Hrun & _ & Hscan).
    exists rda. split; [done |].
    rewrite Hscan. apply scan_open_inside.
Qed.

(** C4. On a new accumulator, BeginScan; AddRange(id 1, stats 10);
    EndScan; RemoveRange(stats 10) ends with total 0 and count 0. *)
Theorem scan_add_then_remove (store : StoreID) :
  accumulate_all (Stats := Z) zero_rangeDataAccumulator
    [ EvBeginScanRanges {| BeginScanRanges_StoreID := store |};
      EvAddRange {| AddRange_StoreID := store;
                    AddRange_Desc := {| RaftID := 1 |};
                    AddRange_Stats := 10 |};
      EvEndScanRanges {| EndScanRanges_StoreID := store |};
      EvRemoveRange {| RemoveRange_StoreID := store;
                       RemoveRange_Stats := 10 |} ]
  = Some {| stats := 0; rangeCount := 0;
            isScanning := false; seenScan := None |}.
Proof. vm_compute. reflexivity. Qed.

(** C5. [removeRange] subtracts the event's stats from the totals and
    decrements the count (as int64, so by exactly one unless the count
    is the least int64), in scanning mode and out of it; mode and
    seen-set stay as they were. *)
Theorem removeRange_unconditional
    (Stats : Type) (ops : MVCCStatsOps Stats)
    (rda : rangeDataAccumulator Stats) (ev : RemoveRangeEvent Stats) :
  stats (removeRange rda ev) =
    MVCCStats_Subtract (stats rda) (RemoveRange_Stats ev) /\
  rangeCount (removeRange rda ev) = Int64.decr (rangeCount rda) /\
  (Int64.in_range (rangeCount rda) -> Int64.min_int < rangeCount rda ->
   rangeCount (removeRange rda ev) = rangeCount rda - 1) /\
  isScanning (removeRange rda ev) = isScanning rda /\
  seenScan (removeRange rda ev) = seenScan rda.
Proof.
  split_and!; try reflexivity.
  simpl. apply int64_decr_exact.
Qed.

(** C6. [splitRange] increments the count and [mergeRange] decrements
    it (as int64: by exactly one away from the ends of the int64 range);
    totals, mode and seen-set stay as they were.  From total 100 and
    count 1, not scanning, a split gives total 100 and count 2, and a
    merge after it total 100 and count 1. *)
Theorem split_merge_count_only :
  (forall (Stats : Type) (ops : MVCCStatsOps Stats)
          (rda : rangeDataAccumulator Stats) ev,
      splitRange rda ev =
        {| stats := stats rda; rangeCount := Int64.incr (rangeCount rda);
           isScanning := isScanning rda; seenScan := seenScan rda |} /\
      (Int64.in_range (rangeCount rda) -> rangeCount rda < Int64.max_int ->
       rangeCount (splitRange rda ev) = rangeCount rda + 1)) /\
  (forall (Stats : Type) (ops : MVCCStatsOps Stats)
          (rda : rangeDataAccumulator Stats) ev,
      mergeRange rda ev =
        {| stats := stats rda; rangeCount := Int64.decr (rangeCount rda);
           isScanning := isScanning rda; seenScan := seenScan rda |} /\
      (Int64.in_range (rangeCount rda) -> Int64.min_int < rangeCount rda ->
       rangeCount (mergeRange rda ev) = rangeCount rda - 1)) /\
  (forall (seen : option (gset Z)) ev1 ev2,
      let rda := {| stats := 100; rangeCount := 1;
                    isScanning := false; seenScan := seen |} in
      splitRange (Stats := Z) rda ev1 =
        {| stats := 100; rangeCount := 2;
           isScanning := false; seenScan := seen |} /\
      mergeRange (splitRange rda ev1) ev2 = rda).
Proof.
  split_and!.
  - intros. split; [done |]. simpl. apply int64_incr_exact.
  - intros. split; [done |]. simpl. apply int64_decr_exact.
  - intros seen ev1 ev2. by split.
Qed.

(** C9. While scanning, [addRange] for a range id that is already in
    the seen-set still increments the count and adds the stats; the
    seen-set is the same set afterwards.  What [addRange] does to totals
    and count is the same whatever the seen-set holds. *)
Theorem addRange_not_deduplicated
    (Stats : Type) (ops : MVCCStatsOps Stats)
    (rda : rangeDataAccumulator Stats) (ev : AddRangeEvent Stats)
    (s : gset Z) :
  isScanning rda = true ->
  seenScan rda = Some s ->
  RaftID (AddRange_Desc ev) ∈ s ->
  addRange rda ev =
    Some {| stats := MVCCStats_Add (stats rda) (AddRange_Stats ev);
            rangeCount := Int64.incr (rangeCount rda);
            isScanning := true;
            seenScan := Some s |} /\
  (forall s' : gset Z, exists rda',
      addRange {| stats := stats rda; rangeCount := rangeCount rda;
                  isScanning := true; seenScan := Some s' |} ev = Some rda' /\
      stats rda' = MVCCStats_Add (stats rda) (AddRange_Stats ev) /\
      rangeCount rda' = Int64.incr (rangeCount rda)).
Proof.
  intros Hscan Hseen Hin. split.
  - rewrite (addRange_scanning rda ev s Hscan Hseen).
    do 2 f_equal. f_equal. by apply subseteq_union_1_L, singleton_subseteq_l.
  - intros s'. eexists. split; [reflexivity |]. by simpl.
Qed.

(** A second AddRange for range 1 during one scan counts it twice. *)
Lemma addRange_not_deduplicated_witness :
  let ev := {| AddRange_StoreID := 1; AddRange_Desc := {| RaftID := 1 |};
               AddRange_Stats := 10 |} in
  let rda := {| stats := 10; rangeCount := 1;
                isScanning := true; seenScan := Some {[ 1 ]} |} in
  addRange (Stats := Z) rda ev =
    Some {| stats := 20; rangeCount := 2;
            isScanning := true; seenScan := Some {[ 1 ]} |}.
Proof.
  intros ev rda.
  refine (proj1 (addRange_not_deduplicated Z _ rda ev {[ 1 ]} _ _ _)).
  - reflexivity.
  - reflexivity.
  - simpl. by apply elem_of_singleton.
Defined.

(** C10. [mergeRange] and [removeRange] on a new accumulator leave the
    count at -1, and a count at or below zero (above the least int64)
    goes negative; neither method can fail or refuse, and a
    MergeRange event sent to a new NodeStatusMonitor is processed and
    leaves the store's count at -1. *)
Theorem rangeCount_goes_negative :
  (forall ev, rangeCount (mergeRange (Stats := Z)
                            zero_rangeDataAccumulator ev) = -1) /\
  (forall ev, rangeCount (removeRange (Stats := Z)
                            zero_rangeDataAccumulator ev) = -1) /\
  (forall ev, accumulate_all (Stats := Z) zero_rangeDataAccumulator
                [EvMergeRange ev] =
              Some {| stats := 0; rangeCount := -1;
                      isScanning := false; seenScan := None |}) /\
  (forall ev, exists nsm s ssm,
      OnMergeRange (Stats := Z) NewNodeStatusMonitor ev = Some nsm /\
      stores nsm !! MergeRange_StoreID ev = Some s /\
      heap nsm !! s = Some ssm /\
      rangeCount (accumulator ssm) = -1) /\
  (forall (Stats : Type) (ops : MVCCStatsOps Stats)
          (rda : rangeDataAccumulator Stats) ev1 ev2,
      Int64.min_int < rangeCount rda <= 0 ->
      rangeCount (mergeRange rda ev1) < 0 /\
      rangeCount (removeRange rda ev2) < 0).
Proof.
  split_and!; try done.
  - intros [store]. unfold OnMergeRange. simpl.
    rewrite GetStoreMonitor_miss by apply lookup_empty.
    unfold call_method. simpl. rewrite lookup_insert_eq. simpl.
    eexists _, _, _. split_and!; [reflexivity | | |]; simpl.
    + apply lookup_insert_eq.
    + apply lookup_insert_eq.
    + reflexivity.
  - intros Stats ops rda ev1 ev2 Hc. simpl.
    rewrite int64_decr_exact;
      unfold Int64.in_range, Int64.min_int, Int64.max_int in *; lia.
Qed.

(** ** Claims about the registry *)

(** C7. [GetStoreMonitor] on a registered store id returns the
    registered monitor and changes nothing.  On an unregistered id it
    allocates one new monitor (zero totals, zero count, not scanning,
    no seen-set, tagged with the id) at an address not in use, registers
    it under the id, and returns it.  After any sequence of calls on a
    new NodeStatusMonitor: a later [GetStoreMonitor] for an id returns
    the very monitor an earlier one returned, registered entries are
    still registered to the same monitor, and no two ids share one. *)
Theorem GetStoreMonitor_one_per_store
    (Stats : Type) (ops : MVCCStatsOps Stats) (V : Type) :
  (forall (nsm : NodeStatusMonitor Stats) id s,
      stores nsm !! id = Some s -> GetStoreMonitor nsm id = (nsm, s)) /\
  (forall (nsm : NodeStatusMonitor Stats) id,
      stores nsm !! id = None ->
      exists s,
        heap nsm !! s = None /\
        GetStoreMonitor nsm id =
          ({| stores := <[ id := s ]> (stores nsm);
              heap := <[ s := {| accumulator := zero_rangeDataAccumulator;
                                 ID := id |} ]> (heap nsm) |}, s)) /\
  (forall (cs1 cs2 : list (call Stats V)) (v0 : V) (id : StoreID),
      exists st1 st2,
        do_calls (NewNodeStatusMonitor, v0) cs1 = Some st1 /\
        do_calls ((GetStoreMonitor st1.1 id).1, st1.2) cs2 = Some st2 /\
        GetStoreMonitor st2.1 id = (st2.1, (GetStoreMonitor st1.1 id).2) /\
        (forall id' s, stores st1.1 !! id' = Some s ->
                       stores st2.1 !! id' = Some s) /\
        (forall id1 id2 s, stores st2.1 !! id1 = Some s ->
                           stores st2.1 !! id2 = Some s -> id1 = id2) /\
        (forall id' s, stores st2.1 !! id' = Some s ->
                       exists ssm, heap st2.1 !! s = Some ssm /\ ID ssm = id')).
Proof.
  split_and!.
  - apply GetStoreMonitor_hit.
  - intros nsm id Hid. exists (fresh (dom (heap nsm))).
    split; [apply fresh_not_live | by apply GetStoreMonitor_miss].
  - intros cs1 cs2 v0 id.
    destruct (do_calls_ok cs1 (NewNodeStatusMonitor, v0) NewNodeStatusMonitor_ok)
      as (st1 & Hrun1 & Hok1 & _).
    pose proof (GetStoreMonitor_ok st1.1 id Hok1) as Hok1'.
    destruct (do_calls_ok cs2 ((GetStoreMonitor st1.1 id).1, st1.2) Hok1')
      as (st2 & Hrun2 & Hok2 & Hmono).
    simpl in Hmono.
    exists st1, st2. split_and!; [done | done | | | |].
    + apply GetStoreMonitor_hit, Hmono, GetStoreMonitor_registered.
    + intros id' s Hs. by apply Hmono, GetStoreMonitor_mono.
    + intros id1 id2 s. by apply nsm_ok_inj.
    + apply (ok_live _ Hok2).
Qed.

(** C8. After any sequence of calls on a new NodeStatusMonitor,
    [VisitStoreMonitors] shows the visitor the registered monitors and
    no others, none of them twice, each with the contents it has in
    the heap; with a visitor that only reads, the registry and every
    monitor are afterwards as before.  Whatever the visitor does, the
    walk reaches the end, the registry is as before, and monitors that
    are not registered are not touched.  After stores
    1, 2, 3 are registered, the ids seen in one walk are 1, 2, 3 in
    some order. *)
Theorem VisitStoreMonitors_each_once
    (Stats : Type) (ops : MVCCStatsOps Stats) (V0 : Type) :
  (forall (cs : list (call Stats V0)) (v0 : V0) (order : RangeOrder),
      exists st visits,
        do_calls (NewNodeStatusMonitor, v0) cs = Some st /\
        NoDup visits.*1 /\
        (forall s, s ∈ visits.*1 <-> exists id, stores st.1 !! id = Some s) /\
        (forall s ssm, (s, ssm) ∈ visits -> heap st.1 !! s = Some ssm) /\
        (forall (V : Type) (f : positive -> StoreStatusMonitor Stats -> V -> V)
                (v : V),
            VisitStoreMonitors order st.1 (observer f) v =
              Some (st.1, foldl (fun v x => f x.1 x.2 v) v visits)) /\
        (forall (V : Type) (f : visitor Stats V) (v : V),
            exists nsm' v',
              VisitStoreMonitors order st.1 f v = Some (nsm', v') /\
              stores nsm' = stores st.1 /\
              dom (heap nsm') = dom (heap st.1) /\
              (forall s, (forall id, stores st.1 !! id <> Some s) ->
                         heap nsm' !! s = heap st.1 !! s))) /\
  (forall order : RangeOrder,
      let nsm :=
        (GetStoreMonitor (Stats := Z)
           (GetStoreMonitor (GetStoreMonitor NewNodeStatusMonitor 1).1 2).1 3).1 in
      exists log,
        VisitStoreMonitors order nsm (observer note_ID) [] = Some (nsm, log) /\
        log ≡ₚ [1; 2; 3]).
Proof.
  split.
  - intros cs v0 order.
    destruct (do_calls_ok cs (NewNodeStatusMonitor, v0) NewNodeStatusMonitor_ok)
      as (st & Hrun & Hok & _).
    set (entries := range_over order (stores st.1)).
    assert (Hptrs : (visits_of (heap st.1) entries).*1 = entries.*2).
    { apply (visit_each_observer (fun _ _ (v : unit) => v) entries (heap st.1) tt).
      intros e. by apply range_over_live. }
    exists st, (visits_of (heap st.1) entries). split_and!.
    + done.
    + rewrite Hptrs. by apply range_over_NoDup.
    + intros s. rewrite Hptrs. apply range_over_pointers.
    + apply visits_of_lookup.
    + intros V f v. by apply VisitStoreMonitors_observer.
    + intros V f v. by apply VisitStoreMonitors_total.
  - intros order nsm.
    destruct (VisitStoreMonitors_note_ID order nsm) as (log & Hrun & Hlog).
    { subst nsm. do 3 apply GetStoreMonitor_ok. apply NewNodeStatusMonitor_ok. }
    exists log. split; [done |]. rewrite Hlog.
    replace ((map_to_list (stores nsm)).*1) with (rev [1; 2; 3])
      by (vm_compute; reflexivity).
    symmetry. apply Permutation_rev.
Qed.

(** * Further properties of the accumulator *)

Lemma int64_wrap_add_l x y : Int64.wrap (Int64.wrap x + y) = Int64.wrap (x + y).
Proof.
  unfold Int64.wrap.
  replace ((x + 2 ^ 63) mod 2 ^ 64 - 2 ^ 63 + y + 2 ^ 63)
    with ((x + 2 ^ 63) mod 2 ^ 64 + y) by lia.
  rewrite Zplus_mod_idemp_l. f_equal. f_equal. lia.
Qed.

Lemma int64_incr_decr z : Int64.in_range z -> Int64.incr (Int64.decr z) = z.
Proof.
  intros Hz.
  unfold Int64.in_range, Int64.min_int, Int64.max_int in Hz.
  destruct (Z.eq_dec z (- 2 ^ 63)) as [-> | Hne]; [reflexivity |].
  rewrite int64_decr_exact, int64_incr_exact;
    unfold Int64.in_range, Int64.min_int, Int64.max_int; lia.
Qed.

Section AccumulatorStreams.
Context {Stats : Type} `{!MVCCStatsOps Stats}.
Implicit Types (rda : rangeDataAccumulator Stats).
Implicit Types (evs : list (StoreEvent Stats)).

Lemma accumulate_all_app rda evs1 evs2 :
  accumulate_all rda (evs1 ++ evs2) =
  accumulate_all rda evs1 ≫= fun rda' => accumulate_all rda' evs2.
Proof.
  revert rda. induction evs1 as [| ev evs1 IH]; intros rda; [done |].
  simpl. destruct (accumulate rda ev) as [rda1 |]; simpl; [apply IH | done].
Qed.

(** A scan made of AddRange and UpdateRange events, on an accumulator
    that is scanning with seen-set [s]. *)
Lemma scan_events_run evs : forall rda s,
  Forall is_scan_event evs ->
  isScanning rda = true ->
  seenScan rda = Some s ->
  Int64.in_range (rangeCount rda) ->
  exists rda',
    accumulate_all rda evs = Some rda' /\
    isScanning rda' = true /\
    seenScan rda' = Some (list_to_set (added_ids evs) ∪ s) /\
    rangeCount rda' =
      Int64.wrap (rangeCount rda + Z.of_nat (length (added_ids evs))).
Proof.
  induction evs as [| ev evs IH]; intros rda s Hevs Hscan Hseen Hrange.
  - exists rda. simpl. split_and!; [done | done | |].
    + rewrite Hseen. f_equal. by rewrite (left_id_L ∅ (∪)).
    + rewrite Z.add_0_r. symmetry. by apply int64_wrap_id.
  - inversion Hevs as [| ? ? Hev Hevs']; subst.
    destruct ev as [e | e | e | e | e | e | e | e]; try by destruct Hev.
    + simpl accumulate_all. simpl accumulate.
      rewrite (addRange_scanning rda e s Hscan Hseen). simpl.
      set (rda1 := {| stats := MVCCStats_Add (stats rda) (AddRange_Stats e);
                      rangeCount := Int64.incr (rangeCount rda);
                      isScanning := true;
                      seenScan := Some ({[ RaftID (AddRange_Desc e) ]} ∪ s) |}).
      destruct (IH rda1 ({[ RaftID (AddRange_Desc e) ]} ∪ s) Hevs')
        as (rda' & Hrun & Hscan' & Hseen' & Hcount);
        [done | done | apply int64_incr_in_range |].
      exists rda'. split_and!; [done | done | |].
      * rewrite Hseen'. f_equal. simpl.
        by rewrite (assoc_L (∪)), (comm_L (∪) (list_to_set _)).
      * rewrite Hcount. simpl. unfold Int64.incr, Int64.add.
        rewrite int64_wrap_add_l. f_equal. lia.
    + simpl accumulate_all. simpl accumulate. simpl.
      destruct (IH (updateRange rda e) s Hevs')
        as (rda' & Hrun & Hscan' & Hseen' & Hcount).
      * by rewrite updateRange_isScanning.
      * by rewrite updateRange_seenScan.
      * by rewrite updateRange_rangeCount.
      * exists rda'. split_and!; [done | done | done |].
        by rewrite Hcount, updateRange_rangeCount.
Qed.

Lemma accumulate_rangeCount_in_range rda ev rda' :
  Int64.in_range (rangeCount rda) ->
  accumulate rda ev = Some rda' ->
  Int64.in_range (rangeCount rda').
Proof.
  intros Hrange.
  destruct ev as [e | e | e | e | e | e | e | e]; simpl;
    try (intros [= <-]; simpl;
         first [done | apply int64_incr_in_range | apply int64_decr_in_range]).
  - unfold addRange. destruct (isScanning rda); [| by intros [= <-]].
    destruct (map_assign _ _); [| done].
    intros [= <-]. apply int64_incr_in_range.
  - intros [= <-]. by rewrite updateRange_rangeCount.
Qed.

End AccumulatorStreams.

(** X11. [addRange] panics exactly when the accumulator is marked as
    scanning while its seen-set is the nil map; in every other state it
    returns. *)
Theorem addRange_panics_iff
    (Stats : Type) (ops : MVCCStatsOps Stats)
    (rda : rangeDataAccumulator Stats) (ev : AddRangeEvent Stats) :
  addRange rda ev = None <-> isScanning rda = true /\ seenScan rda = None.
Proof.
  unfold addRange.
  destruct (isScanning rda), (seenScan rda) as [s |]; simpl;
    split; first [done | by intros [? ?]].
Qed.

(** X12. A BeginScanRanges makes the outcome independent of everything
    the accumulator processed before it: any events, then BeginScan,
    then [post], end like BeginScan followed by [post] on a new
    accumulator. *)
Theorem beginScanRanges_forgets_history
    (Stats : Type) (ops : MVCCStatsOps Stats)
    (pre post : list (StoreEvent Stats)) (e : BeginScanRangesEvent) :
  accumulate_all zero_rangeDataAccumulator (pre ++ EvBeginScanRanges e :: post)
  = accumulate_all zero_rangeDataAccumulator (EvBeginScanRanges e :: post).
Proof.
  rewrite accumulate_all_app.
  destruct (accumulate_all_ok pre _ zero_rda_ok) as (rda & -> & _).
  reflexivity.
Qed.

(** X13. After BeginScanRanges and a run of AddRange and UpdateRange
    events, the accumulator is scanning, its seen-set holds exactly the
    range ids of the AddRange events, and its count is their number (as
    an int64), repeated ids counted each time. *)
Theorem scan_counts_added_ranges
    (Stats : Type) (ops : MVCCStatsOps Stats)
    (rda : rangeDataAccumulator Stats) (e : BeginScanRangesEvent)
    (evs : list (StoreEvent Stats)) :
  Forall is_scan_event evs ->
  exists rda',
    accumulate_all rda (EvBeginScanRanges e :: evs) = Some rda' /\
    isScanning rda' = true /\
    seenScan rda' = Some (list_to_set (added_ids evs)) /\
    rangeCount rda' = Int64.wrap (Z.of_nat (length (added_ids evs))).
Proof.
  intros Hevs.
  destruct (scan_events_run evs (beginScanRanges rda e) ∅ Hevs)
    as (rda' & Hrun & Hscan & Hseen & Hcount); [done | done | done |].
  exists rda'. split_and!; [done | done | |].
  - rewrite Hseen. f_equal. by rewrite (right_id_L ∅ (∪)).
  - by rewrite Hcount.
Qed.

(** Two AddRange events for range 7 and an update: seen-set {7}, count 2. *)
Lemma scan_counts_added_ranges_witness :
  let add := EvAddRange {| AddRange_StoreID := 1;
                           AddRange_Desc := {| RaftID := 7 |};
                           AddRange_Stats := 10 |} in
  let upd := EvUpdateRange {| UpdateRange_StoreID := 1;
                              UpdateRange_Desc := {| RaftID := 7 |};
                              UpdateRange_Delta := 3 |} in
  exists rda',
    accumulate_all (Stats := Z) zero_rangeDataAccumulator
      (EvBeginScanRanges {| BeginScanRanges_StoreID := 1 |}
         :: [add; upd; add]) = Some rda' /\
    isScanning rda' = true /\
    seenScan rda' = Some (list_to_set (added_ids [add; upd; add])) /\
    rangeCount rda' = Int64.wrap (Z.of_nat (length (added_ids [add; upd; add]))).
Proof.
  intros add upd.
  apply (scan_counts_added_ranges Z _ zero_rangeDataAccumulator
           {| BeginScanRanges_StoreID := 1 |} [add; upd; add]).
  repeat constructor.
Defined.

(** X14. Updates that arrive in a scan before any AddRange are all
    dropped: BeginScanRanges followed only by UpdateRange events leaves
    the accumulator as BeginScanRanges made it (zero totals, count 0,
    empty seen-set). *)
Theorem scan_without_adds_drops_updates
    (Stats : Type) (ops : MVCCStatsOps Stats)
    (rda : rangeDataAccumulator Stats) (e : BeginScanRangesEvent)
    (us : list (UpdateRangeEvent Stats)) :
  accumulate_all rda (EvBeginScanRanges e :: (EvUpdateRange <$> us))
  = Some {| stats := MVCCStats_zero; rangeCount := 0;
            isScanning := true; seenScan := Some ∅ |}.
Proof.
  simpl. induction us as [| u us IH]; [done |].
  simpl. rewrite updateRange_skipped; [exact IH | done |].
  simpl. apply not_elem_of_empty.
Qed.

(** X15. A split followed by a merge, or a merge followed by a split,
    gives back the accumulator it started from, for every count an
    int64 can hold, the largest and the least included. *)
Theorem split_merge_round_trip
    (Stats : Type) (ops : MVCCStatsOps Stats)
    (rda : rangeDataAccumulator Stats)
    (es : SplitRangeEvent) (em : MergeRangeEvent) :
  Int64.in_range (rangeCount rda) ->
  mergeRange (splitRange rda es) em = rda /\
  splitRange (mergeRange rda em) es = rda.
Proof.
  intros Hrange. destruct rda as [st c sc seen]. simpl in Hrange.
  unfold mergeRange, splitRange. simpl.
  by rewrite int64_decr_incr, int64_incr_decr.
Qed.

(** At the largest int64 the split wraps and the merge wraps back. *)
Lemma split_merge_round_trip_witness :
  let rda := {| stats := 100; rangeCount := Int64.max_int;
                isScanning := false; seenScan := None |} in
  mergeRange (Stats := Z) (splitRange rda {| SplitRange_StoreID := 1 |})
             {| MergeRange_StoreID := 1 |} = rda /\
  splitRange (mergeRange rda {| MergeRange_StoreID := 1 |})
             {| SplitRange_StoreID := 1 |} = rda.
Proof.
  intros rda.
  apply (split_merge_round_trip Z _ rda).
  subst rda. unfold Int64.in_range, Int64.min_int, Int64.max_int. simpl. lia.
Defined.

(** * Further properties of the registry *)

Section DispatchFacts.
Context {Stats : Type} `{!MVCCStatsOps Stats}.
Implicit Types (nsm : NodeStatusMonitor Stats) (id : StoreID) (s : positive).
Implicit Types (ev : StoreEvent Stats) (evs : list (StoreEvent Stats)).

Lemma ssm_eta (ssm : StoreStatusMonitor Stats) :
  {| accumulator := accumulator ssm; ID := ID ssm |} = ssm.
Proof. by destruct ssm. Qed.

Lemma GetStoreMonitor_subseteq nsm id :
  stores nsm ⊆ stores (GetStoreMonitor nsm id).1 /\
  heap nsm ⊆ heap (GetStoreMonitor nsm id).1.
Proof.
  destruct (stores nsm !! id) as [s |] eqn:Hid.
  - by rewrite (GetStoreMonitor_hit _ _ _ Hid).
  - rewrite (GetStoreMonitor_miss _ _ Hid). simpl. split.
    + by apply insert_subseteq.
    + apply insert_subseteq, fresh_not_live.
Qed.

Lemma GetStoreMonitor_other nsm id id' :
  id' <> id ->
  stores (GetStoreMonitor nsm id).1 !! id' = stores nsm !! id'.
Proof.
  intros Hne. destruct (stores nsm !! id) as [s |] eqn:Hid.
  - by rewrite (GetStoreMonitor_hit _ _ _ Hid).
  - rewrite (GetStoreMonitor_miss _ _ Hid). simpl. by apply lookup_insert_ne.
Qed.

Lemma GetStoreMonitor_dom nsm id :
  dom (stores (GetStoreMonitor nsm id).1) = {[ id ]} ∪ dom (stores nsm).
Proof.
  destruct (stores nsm !! id) as [s |] eqn:Hid.
  - rewrite (GetStoreMonitor_hit _ _ _ Hid). simpl.
    apply elem_of_dom_2 in Hid. symmetry.
    by apply subseteq_union_1_L, singleton_subseteq_l.
  - rewrite (GetStoreMonitor_miss _ _ Hid). simpl. apply dom_insert_L.
Qed.

(** The accumulator a store has once [GetStoreMonitor] has run is the
    one it had, or the zero accumulator when the store is new. *)
Lemma GetStoreMonitor_store_accumulator nsm id :
  nsm_ok nsm ->
  store_accumulator (GetStoreMonitor nsm id).1 id =
    Some (default zero_rangeDataAccumulator (store_accumulator nsm id)).
Proof.
  intros Hok. unfold store_accumulator.
  destruct (stores nsm !! id) as [s |] eqn:Hid.
  - rewrite (GetStoreMonitor_hit _ _ _ Hid). simpl. rewrite Hid. simpl.
    destruct (ok_live _ Hok _ _ Hid) as (ssm & -> & _). done.
  - rewrite (GetStoreMonitor_miss _ _ Hid). simpl.
    rewrite lookup_insert_eq. simpl. by rewrite lookup_insert_eq.
Qed.

(** What a listener method leaves behind, spelled out. *)
Lemma dispatch_spec nsm ev :
  nsm_ok nsm ->
  exists ssm rda',
    heap (GetStoreMonitor nsm (event_StoreID ev)).1
      !! (GetStoreMonitor nsm (event_StoreID ev)).2 = Some ssm /\
    ID ssm = event_StoreID ev /\
    accumulate (accumulator ssm) ev = Some rda' /\
    dispatch nsm ev =
      Some {| stores := stores (GetStoreMonitor nsm (event_StoreID ev)).1;
              heap := <[ (GetStoreMonitor nsm (event_StoreID ev)).2 :=
                           {| accumulator := rda'; ID := ID ssm |} ]>
                        (heap (GetStoreMonitor nsm (event_StoreID ev)).1) |}.
Proof.
  intros Hok.
  pose proof (GetStoreMonitor_ok nsm (event_StoreID ev) Hok) as Hok1.
  pose proof (GetStoreMonitor_registered nsm (event_StoreID ev)) as Hreg.
  destruct (ok_live _ Hok1 _ _ Hreg) as (ssm & Hssm & HID).
  destruct (accumulate_ok (accumulator ssm) ev (ok_rda _ Hok1 _ _ Hssm))
    as (rda' & Hacc & _).
  exists ssm, rda'. split_and!; [done | done | done |].
  assert (Hkind : (exists e, ev = EvStartStore e) \/
                  (forall e, ev <> EvStartStore e))
    by (destruct ev; first [left; by eexists | by right]).
  destruct Hkind as [[e ->] | Hne].
  - simpl in *. injection Hacc as <-. unfold OnStartStore. f_equal.
    rewrite ssm_eta, (insert_id _ _ _ Hssm). by rewrite nsm_eta.
  - rewrite dispatch_accumulate by done.
    destruct (GetStoreMonitor nsm (event_StoreID ev)) as [nsm1 s].
    simpl in *. by rewrite Hssm; simpl; rewrite Hacc.
Qed.

(** The event's store afterwards holds what [accumulate] computes from
    the accumulator it had (the zero one if the store is new). *)
Lemma dispatch_same_store nsm ev :
  nsm_ok nsm ->
  exists nsm' rda',
    dispatch nsm ev = Some nsm' /\ nsm_ok nsm' /\
    accumulate (default zero_rangeDataAccumulator
                  (store_accumulator nsm (event_StoreID ev))) ev = Some rda' /\
    store_accumulator nsm' (event_StoreID ev) = Some rda' /\
    dom (stores nsm') = {[ event_StoreID ev ]} ∪ dom (stores nsm).
Proof.
  intros Hok.
  destruct (dispatch_spec nsm ev Hok) as (ssm & rda' & Hssm & HID & Hacc & Hrun).
  destruct (dispatch_ok nsm ev Hok) as (nsm' & Hrun' & Hok' & Hstores).
  pose proof (GetStoreMonitor_store_accumulator nsm (event_StoreID ev) Hok)
    as Hbefore.
  pose proof (GetStoreMonitor_registered nsm (event_StoreID ev)) as Hreg.
  unfold store_accumulator in Hbefore at 1.
  rewrite Hreg in Hbefore. simpl in Hbefore. rewrite Hssm in Hbefore.
  simpl in Hbefore. injection Hbefore as Hbefore.
  exists nsm', rda'. split_and!; [done | done | by rewrite <- Hbefore | |].
  - rewrite Hrun in Hrun'. injection Hrun' as <-.
    unfold store_accumulator. simpl. rewrite Hreg. simpl.
    by rewrite lookup_insert_eq.
  - rewrite Hstores. apply GetStoreMonitor_dom.
Qed.

(** Every other store keeps its monitor and the monitor its contents. *)
Lemma dispatch_other_store nsm ev nsm' id' :
  nsm_ok nsm ->
  dispatch nsm ev = Some nsm' ->
  id' <> event_StoreID ev ->
  stores nsm' !! id' = stores nsm !! id' /\
  store_accumulator nsm' id' = store_accumulator nsm id'.
Proof.
  intros Hok Hrun' Hne.
  destruct (dispatch_spec nsm ev Hok) as (ssm & rda' & Hssm & HID & Hacc & Hrun).
  rewrite Hrun in Hrun'. injection Hrun' as <-.
  pose proof (GetStoreMonitor_ok nsm (event_StoreID ev) Hok) as Hok1.
  pose proof (GetStoreMonitor_registered nsm (event_StoreID ev)) as Hreg.
  pose proof (GetStoreMonitor_other nsm (event_StoreID ev) id' Hne) as Hother.
  destruct (GetStoreMonitor_subseteq nsm (event_StoreID ev)) as [_ Hheap].
  split; [done |].
  unfold store_accumulator. simpl. rewrite Hother.
  destruct (stores nsm !! id') as [s' |] eqn:Hid'; [simpl | done].
  destruct (ok_live _ Hok _ _ Hid') as (ssm' & Hssm' & _).
  rewrite lookup_insert_ne.
  - by rewrite (lookup_weaken _ _ _ _ Hssm' Hheap), Hssm'.
  - intros Heq. apply Hne. symmetry.
    apply (nsm_ok_inj _ _ _ s' Hok1); [by rewrite <- Heq | by rewrite Hother].
Qed.

Lemma for_store_cons_same id ev evs :
  event_StoreID ev = id -> for_store id (ev :: evs) = ev :: for_store id evs.
Proof. intros Heq. unfold for_store. by rewrite filter_cons_True. Qed.

Lemma for_store_cons_other id ev evs :
  event_StoreID ev <> id -> for_store id (ev :: evs) = for_store id evs.
Proof. intros Hne. unfold for_store. by rewrite filter_cons_False. Qed.

(** A stream of events, seen from one store: the store's accumulator
    processes the events that name the store, in order, starting from
    the accumulator the store had or from the zero accumulator. *)
Lemma dispatch_all_view evs : forall nsm,
  nsm_ok nsm ->
  exists nsm',
    dispatch_all nsm evs = Some nsm' /\ nsm_ok nsm' /\
    dom (stores nsm') = list_to_set (event_StoreID <$> evs) ∪ dom (stores nsm) /\
    forall id,
      match store_accumulator nsm id with
      | Some rda =>
          store_accumulator nsm' id = accumulate_all rda (for_store id evs)
      | None =>
          (for_store id evs = [] /\ store_accumulator nsm' id = None) \/
          (for_store id evs <> [] /\
           store_accumulator nsm' id =
             accumulate_all zero_rangeDataAccumulator (for_store id evs))
      end.
Proof.
  induction evs as [| ev evs IH]; intros nsm Hok.
  - exists nsm. simpl. split_and!; [done | done | |].
    + by rewrite (left_id_L ∅ (∪)).
    + intros id. destruct (store_accumulator nsm id); [done | by left].
  - destruct (dispatch_same_store nsm ev Hok)
      as (nsm1 & rda1 & Hstep & Hok1 & Hacc & Hafter & Hdom1).
    destruct (IH nsm1 Hok1) as (nsm' & Hrun & Hok' & Hdom & Hview).
    exists nsm'. simpl dispatch_all. rewrite Hstep. simpl.
    split_and!; [done | done | |].
    + rewrite Hdom, Hdom1. by rewrite (assoc_L (∪)), (comm_L (∪) (list_to_set _)).
    + intros id. specialize (Hview id).
      destruct (decide (event_StoreID ev = id)) as [<- | Hne].
      * rewrite for_store_cons_same by done.
        rewrite Hafter in Hview. simpl accumulate_all.
        destruct (store_accumulator nsm (event_StoreID ev)) as [rda |];
          simpl in Hacc.
        -- by rewrite Hacc.
        -- right. split; [done |]. by rewrite Hacc.
      * rewrite for_store_cons_other by done.
        destruct (dispatch_other_store nsm ev nsm1 id Hok Hstep) as [_ Hsame];
          [done |].
        by rewrite Hsame in Hview.
Qed.

(** The registry and the heap grow in step. *)
Lemma GetStoreMonitor_no_orphans nsm id :
  no_orphans nsm -> size (heap nsm) = size (stores nsm) ->
  no_orphans (GetStoreMonitor nsm id).1 /\
  size (heap (GetStoreMonitor nsm id).1) =
    size (stores (GetStoreMonitor nsm id).1).
Proof.
  intros Hno Hsize. destruct (stores nsm !! id) as [s0 |] eqn:Hid.
  - by rewrite (GetStoreMonitor_hit _ _ _ Hid).
  - rewrite (GetStoreMonitor_miss _ _ Hid). simpl.
    pose proof (fresh_not_live nsm) as Hfresh. split.
    + intros s ssm. simpl.
      destruct (decide (fresh (dom (heap nsm)) = s)) as [<- | Hne].
      * rewrite lookup_insert_eq. intros [= <-]. simpl. apply lookup_insert_eq.
      * rewrite lookup_insert_ne by done. intros Hs.
        pose proof (Hno _ _ Hs) as Hreg.
        rewrite lookup_insert_ne; [done | congruence].
    + rewrite !map_size_insert_None by done. by rewrite Hsize.
Qed.

Lemma dispatch_no_orphans nsm ev nsm' :
  nsm_ok nsm -> dispatch nsm ev = Some nsm' ->
  no_orphans nsm -> size (heap nsm) = size (stores nsm) ->
  no_orphans nsm' /\ size (heap nsm') = size (stores nsm').
Proof.
  intros Hok Hrun' Hno Hsize.
  destruct (dispatch_spec nsm ev Hok) as (ssm & rda' & Hssm & HID & Hacc & Hrun).
  rewrite Hrun in Hrun'. injection Hrun' as <-.
  destruct (GetStoreMonitor_no_orphans nsm (event_StoreID ev) Hno Hsize)
    as [Hno1 Hsize1].
  split; simpl.
  - intros s ssm'. simpl.
    destruct (decide ((GetStoreMonitor nsm (event_StoreID ev)).2 = s))
      as [<- | Hne].
    + rewrite lookup_insert_eq. intros [= <-]. simpl. by apply Hno1.
    + rewrite lookup_insert_ne by done. apply Hno1.
  - rewrite map_size_insert_Some by eauto. done.
Qed.

Lemma do_call_no_orphans {V} (st st' : NodeStatusMonitor Stats * V)
    (c : call Stats V) :
  nsm_ok st.1 -> do_call st c = Some st' ->
  no_orphans st.1 -> size (heap st.1) = size (stores st.1) ->
  no_orphans st'.1 /\ size (heap st'.1) = size (stores st'.1).
Proof.
  destruct st as [nsm v]. simpl. intros Hok Hstep Hno Hsize.
  destruct c as [id | order f | ev]; simpl in Hstep.
  - injection Hstep as <-. by apply GetStoreMonitor_no_orphans.
  - rewrite VisitStoreMonitors_observer in Hstep by done.
    by injection Hstep as <-.
  - destruct (dispatch nsm ev) as [nsm1 |] eqn:Hd; [| done].
    injection Hstep as <-. by eapply dispatch_no_orphans.
Qed.

Lemma do_calls_no_orphans {V} (cs : list (call Stats V)) :
  forall st : NodeStatusMonitor Stats * V,
  nsm_ok st.1 -> no_orphans st.1 -> size (heap st.1) = size (stores st.1) ->
  exists st', do_calls st cs = Some st' /\ nsm_ok st'.1 /\
              no_orphans st'.1 /\ size (heap st'.1) = size (stores st'.1).
Proof.
  induction cs as [| c cs IH]; intros st Hok Hno Hsize; simpl.
  - by exists st.
  - destruct (do_call_ok st c Hok) as (st1 & Hstep & Hok1 & _).
    destruct (do_call_no_orphans st st1 c Hok Hstep Hno Hsize) as [Hno1 Hsize1].
    rewrite Hstep. simpl. by apply IH.
Qed.

(** A fold with a visitor whose calls commute gives the same result
    over any two listings of the same entries. *)
Lemma foldl_commute_Permutation {A B} (g : B -> A -> B) (l1 l2 : list A) :
  (forall b x y, g (g b x) y = g (g b y) x) ->
  l1 ≡ₚ l2 -> forall b, foldl g b l1 = foldl g b l2.
Proof.
  intros Hcomm Hperm. induction Hperm as [| x l1 l2 _ IH | x y l | l1 l2 l3 _ IH1 _ IH2];
    intros b; simpl.
  - done.
  - apply IH.
  - by rewrite Hcomm.
  - by rewrite IH1.
Qed.

Lemma visits_of_Permutation (h : gmap positive (StoreStatusMonitor Stats))
    (entries1 entries2 : list (Z * positive)) :
  entries1 ≡ₚ entries2 -> visits_of h entries1 ≡ₚ visits_of h entries2.
Proof. intros Hperm. unfold visits_of. by rewrite Hperm. Qed.

End DispatchFacts.

(** X1. An event for one store leaves every other store alone: the
    other store is registered to the same monitor as before (or still
    not registered), and its accumulator is unchanged. *)
Theorem dispatch_isolates_other_stores
    (Stats : Type) (ops : MVCCStatsOps Stats)
    (nsm : NodeStatusMonitor Stats) (ev : StoreEvent Stats) (id' : StoreID) :
  nsm_ok nsm ->
  id' <> event_StoreID ev ->
  exists nsm',
    dispatch nsm ev = Some nsm' /\
    stores nsm' !! id' = stores nsm !! id' /\
    store_accumulator nsm' id' = store_accumulator nsm id'.
Proof.
  intros Hok Hne.
  destruct (dispatch_ok nsm ev Hok) as (nsm' & Hrun & _).
  exists nsm'. split; [done |]. by apply (dispatch_other_store nsm ev).
Qed.

(** A BeginScanRanges for store 2 does not touch store 1. *)
Lemma dispatch_isolates_other_stores_witness :
  let nsm := (GetStoreMonitor (Stats := Z)
                (GetStoreMonitor NewNodeStatusMonitor 1).1 2).1 in
  let ev := EvBeginScanRanges {| BeginScanRanges_StoreID := 2 |} in
  exists nsm',
    dispatch nsm ev = Some nsm' /\
    stores nsm' !! 1 = stores nsm !! 1 /\
    store_accumulator nsm' 1 = store_accumulator nsm 1.
Proof.
  intros nsm ev.
  apply (dispatch_isolates_other_stores Z _ nsm ev 1).
  - subst nsm. do 2 apply GetStoreMonitor_ok. apply NewNodeStatusMonitor_ok.
  - simpl. lia.
Defined.

(** X2. A listener method never panics on a well-formed registry, and
    afterwards the event's store is registered and holds what the
    accumulator method for the event computes from the accumulator the
    store had before, or from the zero accumulator if the store was not
    registered. *)
Theorem dispatch_routes_to_store
    (Stats : Type) (ops : MVCCStatsOps Stats)
    (nsm : NodeStatusMonitor Stats) (ev : StoreEvent Stats) :
  nsm_ok nsm ->
  exists nsm' rda',
    dispatch nsm ev = Some nsm' /\
    nsm_ok nsm' /\
    accumulate (default zero_rangeDataAccumulator
                  (store_accumulator nsm (event_StoreID ev))) ev = Some rda' /\
    store_accumulator nsm' (event_StoreID ev) = Some rda'.
Proof.
  intros Hok.
  destruct (dispatch_same_store nsm ev Hok)
    as (nsm' & rda' & Hrun & Hok' & Hacc & Hafter & _).
  by exists nsm', rda'.
Qed.

(** A SplitRange event for a store that was never registered. *)
Lemma dispatch_routes_to_store_witness :
  let ev := EvSplitRange (Stats := Z) {| SplitRange_StoreID := 5 |} in
  exists nsm' rda',
    dispatch NewNodeStatusMonitor ev = Some nsm' /\
    nsm_ok nsm' /\
    accumulate (default zero_rangeDataAccumulator
                  (store_accumulator NewNodeStatusMonitor 5)) ev = Some rda' /\
    store_accumulator nsm' 5 = Some rda'.
Proof.
  intros ev.
  apply (dispatch_routes_to_store Z _ NewNodeStatusMonitor ev).
  apply NewNodeStatusMonitor_ok.
Defined.

(** X3. Processing a stream of events on a new NodeStatusMonitor never
    panics, and each store ends with the accumulator obtained by running
    just the events that name it, in their order, on a zero accumulator;
    a store no event names has no monitor. *)
Theorem dispatch_all_per_store
    (Stats : Type) (ops : MVCCStatsOps Stats)
    (evs : list (StoreEvent Stats)) :
  exists nsm,
    dispatch_all NewNodeStatusMonitor evs = Some nsm /\
    forall id,
      (for_store id evs = [] /\ store_accumulator nsm id = None) \/
      (for_store id evs <> [] /\
       store_accumulator nsm id =
         accumulate_all zero_rangeDataAccumulator (for_store id evs)).
Proof.
  destruct (dispatch_all_view evs NewNodeStatusMonitor NewNodeStatusMonitor_ok)
    as (nsm & Hrun & _ & _ & Hview).
  exists nsm. split; [done |]. intros id. apply (Hview id).
Qed.

(** X4. After a stream of events on a new NodeStatusMonitor the
    registered store ids are exactly the ids the events name. *)
Theorem dispatch_all_registers_named_stores
    (Stats : Type) (ops : MVCCStatsOps Stats)
    (evs : list (StoreEvent Stats)) :
  exists nsm,
    dispatch_all NewNodeStatusMonitor evs = Some nsm /\
    dom (stores nsm) = list_to_set (event_StoreID <$> evs).
Proof.
  destruct (dispatch_all_view evs NewNodeStatusMonitor NewNodeStatusMonitor_ok)
    as (nsm & Hrun & _ & Hdom & _).
  exists nsm. split; [done |]. rewrite Hdom. simpl.
  by rewrite dom_empty_L, (right_id_L ∅ (∪)).
Qed.

(** X5. Two streams that give every store the same events in the same
    order, however the stores' events are interleaved, leave every
    store with the same accumulator. *)
Theorem dispatch_all_interleaving_irrelevant
    (Stats : Type) (ops : MVCCStatsOps Stats)
    (evs1 evs2 : list (StoreEvent Stats)) :
  (forall id, for_store id evs1 = for_store id evs2) ->
  exists nsm1 nsm2,
    dispatch_all NewNodeStatusMonitor evs1 = Some nsm1 /\
    dispatch_all NewNodeStatusMonitor evs2 = Some nsm2 /\
    forall id, store_accumulator nsm1 id = store_accumulator nsm2 id.
Proof.
  intros Hsame.
  destruct (dispatch_all_view evs1 NewNodeStatusMonitor NewNodeStatusMonitor_ok)
    as (nsm1 & Hrun1 & _ & _ & Hview1).
  destruct (dispatch_all_view evs2 NewNodeStatusMonitor NewNodeStatusMonitor_ok)
    as (nsm2 & Hrun2 & _ & _ & Hview2).
  exists nsm1, nsm2. split_and!; [done | done |].
  intros id. specialize (Hview1 id). specialize (Hview2 id).
  simpl in Hview1, Hview2. rewrite <- (Hsame id) in Hview2.
  destruct Hview1 as [[Hnil1 ->] | [Hne1 ->]],
           Hview2 as [[Hnil2 ->] | [Hne2 ->]]; done.
Qed.

(** A scan of store 1 and a split on store 2, in either order. *)
Lemma dispatch_all_interleaving_irrelevant_witness :
  let a := EvBeginScanRanges (Stats := Z) {| BeginScanRanges_StoreID := 1 |} in
  let b := EvSplitRange (Stats := Z) {| SplitRange_StoreID := 2 |} in
  exists nsm1 nsm2,
    dispatch_all NewNodeStatusMonitor [a; b] = Some nsm1 /\
    dispatch_all NewNodeStatusMonitor [b; a] = Some nsm2 /\
    forall id, store_accumulator nsm1 id = store_accumulator nsm2 id.
Proof.
  intros a b.
  apply (dispatch_all_interleaving_irrelevant Z _ [a; b] [b; a]).
  intros id. unfold for_store. subst a b.
  rewrite !filter_cons, filter_nil. simpl.
  repeat case_decide; first [done | lia].
Defined.

(** X6. After any sequence of calls on a new NodeStatusMonitor every
    monitor in memory is the one registered for its own store id, and
    there are as many monitors as registered stores: no monitor is
    allocated and then left out of the registry. *)
Theorem registry_has_no_orphans
    (Stats : Type) (ops : MVCCStatsOps Stats) (V : Type)
    (cs : list (call Stats V)) (v0 : V) :
  exists st,
    do_calls (NewNodeStatusMonitor, v0) cs = Some st /\
    (forall s ssm, heap st.1 !! s = Some ssm ->
                   stores st.1 !! ID ssm = Some s) /\
    size (heap st.1) = size (stores st.1).
Proof.
  destruct (do_calls_no_orphans cs (NewNodeStatusMonitor, v0))
    as (st & Hrun & _ & Hno & Hsize).
  - apply NewNodeStatusMonitor_ok.
  - intros s ssm. simpl. by rewrite lookup_empty.
  - done.
  - by exists st.
Qed.

(** X7. [GetStoreMonitor] only ever adds: every registry entry and
    every monitor, with its contents, is still there afterwards, in any
    state it is called in. *)
Theorem GetStoreMonitor_only_grows
    (Stats : Type) (ops : MVCCStatsOps Stats)
    (nsm : NodeStatusMonitor Stats) (id : StoreID) :
  stores nsm ⊆ stores (GetStoreMonitor nsm id).1 /\
  heap nsm ⊆ heap (GetStoreMonitor nsm id).1.
Proof. apply GetStoreMonitor_subseteq. Qed.

(** X8. On a NodeStatusMonitor whose map has no entries,
    [VisitStoreMonitors] returns without calling the visitor and
    without touching anything, whatever the visitor. *)
Theorem VisitStoreMonitors_empty
    (Stats : Type) (ops : MVCCStatsOps Stats) (V : Type)
    (order : RangeOrder) (nsm : NodeStatusMonitor Stats)
    (f : visitor Stats V) (v : V) :
  stores nsm = ∅ ->
  VisitStoreMonitors order nsm f v = Some (nsm, v).
Proof.
  intros Hempty. unfold VisitStoreMonitors.
  pose proof (range_over_perm order (stores nsm)) as Hperm.
  rewrite Hempty, map_to_list_empty in Hperm. apply Permutation_nil_r in Hperm.
  rewrite Hempty, Hperm. simpl. by rewrite <- Hempty, nsm_eta.
Qed.

(** A visitor that would zero every monitor is never called on a new
    NodeStatusMonitor. *)
Lemma VisitStoreMonitors_empty_witness :
  VisitStoreMonitors (Stats := Z) listing_order NewNodeStatusMonitor
    (fun s ssm (n : nat) =>
       ({| accumulator := zero_rangeDataAccumulator; ID := 0 |}, S n)) 0%nat
  = Some (NewNodeStatusMonitor, 0%nat).
Proof.
  apply (VisitStoreMonitors_empty Z _ nat listing_order NewNodeStatusMonitor).
  reflexivity.
Defined.

(** X9. A visitor that counts its calls ends at the number of
    registered stores, for every iteration order. *)
Theorem VisitStoreMonitors_counts_stores
    (Stats : Type) (ops : MVCCStatsOps Stats)
    (order : RangeOrder) (nsm : NodeStatusMonitor Stats) :
  nsm_ok nsm ->
  VisitStoreMonitors order nsm (observer count_visit) 0%nat
  = Some (nsm, size (stores nsm)).
Proof.
  intros Hok. rewrite VisitStoreMonitors_observer by done. do 2 f_equal.
  set (entries := range_over order (stores nsm)).
  assert (Hcount : forall (l : list (positive * StoreStatusMonitor Stats)) n,
             foldl (fun v x => count_visit x.1 x.2 v) n l = (n + length l)%nat).
  { induction l as [| x l IH]; intros n; simpl; [lia |].
    rewrite IH. unfold count_visit. lia. }
  rewrite Hcount. simpl.
  assert (Hptrs : (visits_of (heap nsm) entries).*1 = entries.*2).
  { apply (visit_each_observer (fun _ _ (v : unit) => v) entries (heap nsm) tt).
    intros e. by apply range_over_live. }
  rewrite <- (length_fmap fst), Hptrs, length_fmap.
  unfold entries. rewrite (range_over_perm order). apply length_map_to_list.
Qed.

(** Three registered stores, walked from the far end: three calls. *)
Lemma VisitStoreMonitors_counts_stores_witness :
  let nsm :=
    (GetStoreMonitor (Stats := Z)
       (GetStoreMonitor (GetStoreMonitor NewNodeStatusMonitor 1).1 2).1 3).1 in
  VisitStoreMonitors reverse_order nsm (observer count_visit) 0%nat
  = Some (nsm, 3%nat).
Proof.
  intros nsm.
  refine (eq_trans (VisitStoreMonitors_counts_stores Z _ reverse_order nsm _) _).
  - subst nsm. do 3 apply GetStoreMonitor_ok. apply NewNodeStatusMonitor_ok.
  - vm_compute. reflexivity.
Defined.

(** X10. When the visitor's calls commute with one another, as when it
    adds up a total, the result of [VisitStoreMonitors] does not depend
    on the order in which the map is walked. *)
Theorem VisitStoreMonitors_order_irrelevant
    (Stats : Type) (ops : MVCCStatsOps Stats) (V : Type)
    (order1 order2 : RangeOrder) (nsm : NodeStatusMonitor Stats)
    (f : positive -> StoreStatusMonitor Stats -> V -> V) (v : V) :
  nsm_ok nsm ->
  (forall s1 ssm1 s2 ssm2 v', f s1 ssm1 (f s2 ssm2 v') = f s2 ssm2 (f s1 ssm1 v')) ->
  VisitStoreMonitors order1 nsm (observer f) v =
  VisitStoreMonitors order2 nsm (observer f) v.
Proof.
  intros Hok Hcomm. rewrite !VisitStoreMonitors_observer by done.
  do 2 f_equal. apply foldl_commute_Permutation.
  - intros b x y. apply Hcomm.
  - apply visits_of_Permutation.
    by rewrite (range_over_perm order1), (range_over_perm order2).
Qed.

(** The total range count of two stores, walked in opposite orders. *)
Lemma VisitStoreMonitors_order_irrelevant_witness :
  let nsm := (GetStoreMonitor (Stats := Z)
                (GetStoreMonitor NewNodeStatusMonitor 1).1 2).1 in
  VisitStoreMonitors listing_order nsm (observer sum_rangeCount) 0 =
  VisitStoreMonitors reverse_order nsm (observer sum_rangeCount) 0.
Proof.
  intros nsm.
  apply (VisitStoreMonitors_order_irrelevant Z _ Z listing_order reverse_order
           nsm sum_rangeCount 0).
  - subst nsm. do 2 apply GetStoreMonitor_ok. apply NewNodeStatusMonitor_ok.
  - intros s1 ssm1 s2 ssm2 v'. unfold sum_rangeCount. lia.
Defined.

(** X16. A StartStore event only registers: it never panics, a second
    one for the same store changes nothing, and for a store that is
    already registered the first one changes nothing either. *)
Theorem OnStartStore_idempotent
    (Stats : Type) (ops : MVCCStatsOps Stats)
    (nsm : NodeStatusMonitor Stats) (e : StartStoreEvent) :
  exists nsm1,
    OnStartStore nsm e = Some nsm1 /\
    OnStartStore nsm1 e = Some nsm1 /\
    is_Some (stores nsm1 !! StartStore_StoreID e) /\
    (is_Some (stores nsm !! StartStore_StoreID e) -> nsm1 = nsm).
Proof.
  unfold OnStartStore. eexists. split; [reflexivity |].
  pose proof (GetStoreMonitor_registered nsm (StartStore_StoreID e)) as Hreg.
  split_and!.
  - by rewrite (GetStoreMonitor_hit _ _ _ Hreg).
  - by eexists.
  - intros [s Hs]. by rewrite (GetStoreMonitor_hit _ _ _ Hs).
Qed.
